(** * SCRAM model layer: events, formulae and errors

    A shallow embedding of [src/event.h] and [src/error.h].

    Objects live in a heap indexed by addresses; [std::shared_ptr] and
    [std::unique_ptr] are possibly-null addresses.  A member function is a
    computation over the heap taking the address of [this].  A computation
    ends in one of four ways: it returns, it throws a SCRAM exception, it
    fails an [assert] (the program is aborted), or its behaviour is
    undefined (dereference of a null or ill-typed pointer).

    [assert] is modelled as the check it performs, that is, as compiled
    without [NDEBUG]. *)

From Stdlib Require Import ZArith Floats Bool Lia.
From stdpp Require Import gmap strings list fin_maps.

(** ** Exceptions ([src/error.h]) *)

Module error.

(** The exception classes of [error.h]. *)
Inductive ErrorClass : Type :=
  | Error
  | IOError
  | InvalidArgument
  | LogicError
  | IllegalOperation
  | SettingsError
  | ValidationError
  | RedefinitionError
  | DuplicateArgumentError
  | UndefinedElement
  | CycleError.

#[global] Instance ErrorClass_eq_dec : EqDecision ErrorClass.
Proof. solve_decision. Defined.

(** The direct SCRAM base class of each exception class, as written in the
    [struct X : public Y] headers.  [Error] is the root of the hierarchy. *)
Definition base (c : ErrorClass) : option ErrorClass :=
  match c with
  | Error => None
  | IOError => Some Error
  | InvalidArgument => Some Error
  | LogicError => Some Error
  | IllegalOperation => Some Error
  | SettingsError => Some Error
  | ValidationError => Some Error
  | RedefinitionError => Some ValidationError
  | DuplicateArgumentError => Some ValidationError
  | UndefinedElement => Some ValidationError
  | CycleError => Some ValidationError
  end.

(** [derives c d]: class [c] is [d] or is derived from [d] through a chain
    of public bases. *)
Inductive derives : ErrorClass -> ErrorClass -> Prop :=
  | derives_refl c : derives c c
  | derives_base c b d : base c = Some b -> derives b d -> derives c d.

(** Executable subtype test; the hierarchy has depth two, so [fuel] of
    three suffices (see [is_a_spec]). *)
Fixpoint is_a_fuel (fuel : nat) (c d : ErrorClass) : bool :=
  if decide (c = d) then true
  else match fuel with
       | O => false
       | S n => match base c with
                | Some b => is_a_fuel n b d
                | None => false
                end
       end.

Definition is_a (c d : ErrorClass) : bool := is_a_fuel 3 c d.

(** An exception object: its dynamic class and the message of
    [Error::msg()]. *)
Record Exception : Type := mkException {
  dynamic_class : ErrorClass;
  msg_ : string
}.

(** A handler [catch (const T&)] is entered for an exception whose dynamic
    class is [T] or derives from it. *)
Definition catches (T : ErrorClass) (ex : Exception) : bool :=
  is_a (dynamic_class ex) T.

End error.

Export error.

(** ** Outcomes and the heap monad *)

Definition loc := positive.

(** A [shared_ptr] / [unique_ptr] value: null or the address of the
    pointee. *)
Inductive pointer : Type :=
  | nullptr
  | at_ (l : loc).

#[global] Instance pointer_eq_dec : EqDecision pointer.
Proof. solve_decision. Defined.

(** Contextual conversion of a smart pointer to [bool]. *)
Definition to_bool (p : pointer) : bool :=
  match p with
  | nullptr => false
  | at_ _ => true
  end.

Section Outcome.
Context {St : Type}.

Inductive Outcome (A : Type) : Type :=
  | Return (a : A) (s : St)
  | Throw (ex : Exception) (s : St)
  | Abort
  | Undefined.

Definition M (A : Type) : Type := St -> Outcome A.

Definition ret {A} (a : A) : M A := fun s => Return A a s.

Definition bind {A B} (m : M A) (k : A -> M B) : M B :=
  fun s => match m s with
           | Return _ a s' => k a s'
           | Throw _ ex s' => Throw B ex s'
           | Abort _ => Abort B
           | Undefined _ => Undefined B
           end.

Definition throw {A} (c : ErrorClass) (msg : string) : M A :=
  fun s => Throw A (mkException c msg) s.

(** [assert(c)]. *)
Definition assert (c : bool) : M unit :=
  fun s => if c then Return unit tt s else Abort unit.

Definition undefined {A} : M A := fun _ => Undefined A.

Definition get_state : M St := fun s => Return St s s.
Definition put_state (s : St) : M unit := fun _ => Return unit tt s.

(** [try { m } catch (const T& ex) { handler ex }]. *)
Definition try_catch {A} (m : M A) (T : ErrorClass)
    (handler : Exception -> M A) : M A :=
  fun s => match m s with
           | Throw _ ex s' =>
               if catches T ex then handler ex s' else Throw A ex s'
           | o => o
           end.
End Outcome.

Arguments Outcome : clear implicits.
Arguments M : clear implicits.
Arguments Return {St A} a s.
Arguments Throw {St A} ex s.
Arguments Abort {St A}.
Arguments Undefined {St A}.

Declare Scope monad_scope.
Delimit Scope monad_scope with monad.
Notation "x <- m ;; k" := (bind m (fun x => k))
  (at level 100, m at next level, right associativity) : monad_scope.
Notation "m ;;; k" := (bind m (fun _ => k))
  (at level 100, right associativity) : monad_scope.
Open Scope monad_scope.

(** ** Numbers *)

(** [double] is an IEEE 754 binary64 number; [<] and [>] on it are the IEEE
    comparisons (false as soon as an operand is NaN). *)
Definition double : Type := float.

Definition double_lt (x y : double) : bool := PrimFloat.ltb x y.
Definition double_gt (x y : double) : bool := PrimFloat.ltb y x.
Definition double_le (x y : double) : bool := PrimFloat.leb x y.

(** Conversion of a container size to [int] (32 bits, two's complement). *)
Definition to_int (n : Z) : Z := (n + 2 ^ 31) mod 2 ^ 32 - 2 ^ 31.

Definition INT_MAX : Z := 2 ^ 31 - 1.

(** ** Data model ([src/event.h]) *)

(** Modelled from the spec: [expression.h] is not part of the sources.  An
    [Expression] object is represented by the values its pure, deterministic
    member functions [Mean()], [Min()] and [Max()] return; the spec has
    [Mean()] pure and [Min()]/[Max()] the analytic bounds of the support. *)
Record Expression : Type := mkExpression {
  Mean : double;
  Min : double;
  Max : double
}.

(** Modelled from the spec: [Role] is declared in [element.h], which is not
    part of the sources.  It holds the [is_public] flag and the [base_path]
    handed to the [Event] constructor. *)
Record Role : Type := mkRole {
  is_public_ : bool;
  base_path_ : string
}.

(** [class Event]. *)
Record Event : Type := mkEvent {
  role : Role;
  id_ : string;
  name_ : string;
  orphan_ : bool
}.

(** [class PrimaryEvent : public Event]. *)
Record PrimaryEvent : Type := mkPrimaryEvent {
  primary_base : Event;
  has_expression_ : bool
}.

(** [class HouseEvent : public PrimaryEvent]. *)
Record HouseEvent : Type := mkHouseEvent {
  house_base : PrimaryEvent;
  state_ : bool
}.

(** [class BasicEvent : public PrimaryEvent]; [expression_] is an
    [ExpressionPtr] and [ccf_gate_] a [GatePtr].  The derived [CcfEvent]
    adds two members that only its own accessors read and inherits every
    member function below unchanged; it is not given a record of its own. *)
Record BasicEvent : Type := mkBasicEvent {
  basic_base : PrimaryEvent;
  expression_ : pointer;
  ccf_gate_ : pointer
}.

(** [class Gate : public Event]; [formula_] is a [FormulaPtr]. *)
Record Gate : Type := mkGate {
  gate_base : Event;
  formula_ : pointer;
  mark_ : string
}.

(** [class Formula].  [event_args_] is the [std::map] from ids to
    [EventPtr]; the four vectors hold [HouseEventPtr], [BasicEventPtr],
    [GatePtr] and [FormulaPtr] values; [nodes_] and [connectors_] hold raw
    pointers. *)
Record Formula : Type := mkFormula {
  type_ : string;
  vote_number_ : Z;
  event_args_ : gmap string pointer;
  house_event_args_ : list pointer;
  basic_event_args_ : list pointer;
  gate_args_ : list pointer;
  formula_args_ : list pointer;
  nodes_ : list pointer;
  connectors_ : list pointer;
  gather_ : bool
}.

(** What an address of the heap can hold. *)
Inductive Object : Type :=
  | ObjExpression (e : Expression)
  | ObjHouseEvent (h : HouseEvent)
  | ObjBasicEvent (b : BasicEvent)
  | ObjGate (g : Gate)
  | ObjFormula (f : Formula).

Abbreviation Heap := (gmap loc Object).

(** Computations over the heap. *)
Abbreviation HeapM := (M Heap).

(** [new T(...)]: the object is placed at an address not in use. *)
Definition alloc (o : Object) : HeapM loc :=
  fun h => let l := fresh (dom h) in Return l (<[l := o]> h).

(** Access to [*this] for the member functions of each class; a call
    through a pointer that does not point to an object of the class is
    undefined. *)
Definition this_house (this : loc) : HeapM HouseEvent :=
  fun h => match h !! this with
           | Some (ObjHouseEvent x) => Return x h
           | _ => Undefined
           end.

Definition this_basic (this : loc) : HeapM BasicEvent :=
  fun h => match h !! this with
           | Some (ObjBasicEvent x) => Return x h
           | _ => Undefined
           end.

Definition this_gate (this : loc) : HeapM Gate :=
  fun h => match h !! this with
           | Some (ObjGate x) => Return x h
           | _ => Undefined
           end.

Definition this_formula (this : loc) : HeapM Formula :=
  fun h => match h !! this with
           | Some (ObjFormula x) => Return x h
           | _ => Undefined
           end.

(** Write-back of a modified [*this]. *)
Definition store (this : loc) (o : Object) : HeapM unit :=
  fun h => Return tt (<[this := o]> h).

(** [expression->...]: the pointee of an [ExpressionPtr]. *)
Definition deref_expression (p : pointer) : HeapM Expression :=
  fun h => match p with
           | nullptr => Undefined
           | at_ l => match h !! l with
                      | Some (ObjExpression e) => Return e h
                      | _ => Undefined
                      end
           end.

(** *** [Event] *)

(** The [Event] subobject of an object of a class derived from [Event]. *)
Definition event_base (o : Object) : option Event :=
  match o with
  | ObjHouseEvent x => Some (primary_base (house_base x))
  | ObjBasicEvent x => Some (primary_base (basic_base x))
  | ObjGate g => Some (gate_base g)
  | ObjExpression _ | ObjFormula _ => None
  end.

Definition set_primary_base (e : Event) (x : PrimaryEvent) : PrimaryEvent :=
  {| primary_base := e; has_expression_ := has_expression_ x |}.

Definition set_event_base (e : Event) (o : Object) : Object :=
  match o with
  | ObjHouseEvent x =>
      ObjHouseEvent {| house_base := set_primary_base e (house_base x);
                       state_ := state_ x |}
  | ObjBasicEvent x =>
      ObjBasicEvent {| basic_base := set_primary_base e (basic_base x);
                       expression_ := expression_ x;
                       ccf_gate_ := ccf_gate_ x |}
  | ObjGate g =>
      ObjGate {| gate_base := e; formula_ := formula_ g; mark_ := mark_ g |}
  | ObjExpression _ | ObjFormula _ => o
  end.

Definition this_event (this : loc) : HeapM Event :=
  fun h => match h !! this with
           | Some o => match event_base o with
                       | Some e => Return e h
                       | None => Undefined
                       end
           | None => Undefined
           end.

(** Lower-casing of one character and of a string (ASCII letters). *)
Definition to_lower_ascii (c : Ascii.ascii) : Ascii.ascii :=
  let n := Ascii.N_of_ascii c in
  if ((65 <=? n) && (n <=? 90))%N then Ascii.ascii_of_N (n + 32) else c.

Fixpoint to_lower (s : string) : string :=
  match s with
  | EmptyString => EmptyString
  | String c s' => String (to_lower_ascii c) (to_lower s')
  end.

(** Modelled from the spec: the constructor [Event::Event] is defined in the
    implementation file, which is not part of the sources.  The spec gives
    every named entity a case-preserved [name] and a lower-cased [id].  The
    initial orphan flag is not fixed by the spec; nothing below depends on
    it. *)
Definition Event_ctor (name base_path : string) (is_public : bool) : Event :=
  {| role := {| is_public_ := is_public; base_path_ := base_path |};
     id_ := to_lower name;
     name_ := name;
     orphan_ := false |}.

(** Modelled from the spec: events have no comparison operator in the
    sources; the spec has identity comparisons use [id]. *)
Definition same_identity (e1 e2 : Event) : bool :=
  bool_decide (id_ e1 = id_ e2).

(** [id()], [name()], [orphan()]. *)
Definition Event_id (this : loc) : HeapM string :=
  e <- this_event this;; ret (id_ e).

Definition Event_name (this : loc) : HeapM string :=
  e <- this_event this;; ret (name_ e).

Definition Event_orphan (this : loc) : HeapM bool :=
  e <- this_event this;; ret (orphan_ e).

(** [orphan(bool state)]. *)
Definition Event_orphan_set (this : loc) (state : bool) : HeapM unit :=
  fun h => match h !! this with
           | Some o =>
               match event_base o with
               | Some e =>
                   store this
                     (set_event_base
                        {| role := role e; id_ := id_ e; name_ := name_ e;
                           orphan_ := state |} o) h
               | None => Undefined
               end
           | None => Undefined
           end.

(** *** [PrimaryEvent] *)

Definition primary_of (o : Object) : option PrimaryEvent :=
  match o with
  | ObjHouseEvent x => Some (house_base x)
  | ObjBasicEvent x => Some (basic_base x)
  | _ => None
  end.

(** [has_expression()]. *)
Definition PrimaryEvent_has_expression (this : loc) : HeapM bool :=
  fun h => match h !! this with
           | Some o => match primary_of o with
                       | Some x => Return (has_expression_ x) h
                       | None => Undefined
                       end
           | None => Undefined
           end.

Definition set_has_expression (flag : bool) (x : PrimaryEvent) : PrimaryEvent :=
  {| primary_base := primary_base x; has_expression_ := flag |}.

(** The protected [has_expression(bool flag)]. *)
Definition PrimaryEvent_has_expression_set (this : loc) (flag : bool)
    : HeapM unit :=
  fun h => match h !! this with
           | Some (ObjHouseEvent x) =>
               store this
                 (ObjHouseEvent
                    {| house_base := set_has_expression flag (house_base x);
                       state_ := state_ x |}) h
           | Some (ObjBasicEvent x) =>
               store this
                 (ObjBasicEvent
                    {| basic_base := set_has_expression flag (basic_base x);
                       expression_ := expression_ x;
                       ccf_gate_ := ccf_gate_ x |}) h
           | _ => Undefined
           end.

(** The constructor inherited by [PrimaryEvent]; [has_expression_] has the
    default member initializer [false]. *)
Definition PrimaryEvent_ctor (name base_path : string) (is_public : bool)
    : PrimaryEvent :=
  {| primary_base := Event_ctor name base_path is_public;
     has_expression_ := false |}.

(** *** [HouseEvent] *)

(** The inherited constructor; [state_] has the default member initializer
    [false]. *)
Definition HouseEvent_ctor (name base_path : string) (is_public : bool)
    : HouseEvent :=
  {| house_base := PrimaryEvent_ctor name base_path is_public;
     state_ := false |}.

(** [void state(bool constant)]. *)
Definition HouseEvent_state_set (this : loc) (constant : bool) : HeapM unit :=
  PrimaryEvent_has_expression_set this true;;;
  x <- this_house this;;
  store this (ObjHouseEvent {| house_base := house_base x;
                               state_ := constant |}).

(** [bool state() const]. *)
Definition HouseEvent_state (this : loc) : HeapM bool :=
  x <- this_house this;; ret (state_ x).

(** *** [BasicEvent] *)

(** The inherited constructor; both smart pointers are default-constructed
    (null). *)
Definition BasicEvent_ctor (name base_path : string) (is_public : bool)
    : BasicEvent :=
  {| basic_base := PrimaryEvent_ctor name base_path is_public;
     expression_ := nullptr;
     ccf_gate_ := nullptr |}.

(** [void expression(const ExpressionPtr& expression)]. *)
Definition BasicEvent_expression_set (this : loc) (expression : pointer)
    : HeapM unit :=
  b <- this_basic this;;
  assert (negb (to_bool (expression_ b)));;;
  PrimaryEvent_has_expression_set this true;;;
  b <- this_basic this;;
  store this (ObjBasicEvent {| basic_base := basic_base b;
                               expression_ := expression;
                               ccf_gate_ := ccf_gate_ b |}).

(** [double p() const noexcept]. *)
Definition BasicEvent_p (this : loc) : HeapM double :=
  b <- this_basic this;;
  assert (to_bool (expression_ b));;;
  e <- deref_expression (expression_ b);;
  ret (Mean e).

(** [void Validate()]; [||] evaluates its right operand only when the left
    one is false. *)
Definition BasicEvent_Validate (this : loc) : HeapM unit :=
  b <- this_basic this;;
  e <- deref_expression (expression_ b);;
  if double_lt (Min e) 0%float then
    throw ValidationError "Expression value is invalid."
  else
    e' <- deref_expression (expression_ b);;
    if double_gt (Max e') 1%float then
      throw ValidationError "Expression value is invalid."
    else ret tt.

(** [bool HasCcf() const]. *)
Definition BasicEvent_HasCcf (this : loc) : HeapM bool :=
  b <- this_basic this;;
  ret (if to_bool (ccf_gate_ b) then true else false).

(** [const GatePtr& ccf_gate() const]. *)
Definition BasicEvent_ccf_gate (this : loc) : HeapM pointer :=
  b <- this_basic this;;
  assert (to_bool (ccf_gate_ b));;;
  ret (ccf_gate_ b).

(** [void ccf_gate(const GatePtr& gate)]. *)
Definition BasicEvent_ccf_gate_set (this : loc) (gate : pointer)
    : HeapM unit :=
  b <- this_basic this;;
  assert (negb (to_bool (ccf_gate_ b)));;;
  store this (ObjBasicEvent {| basic_base := basic_base b;
                               expression_ := expression_ b;
                               ccf_gate_ := gate |}).

(** *** [Gate] *)

(** The constructor inherited by [Gate]; [formula_] is default-constructed
    (null) and [mark_] has the default member initializer, the empty
    string. *)
Definition Gate_ctor (name base_path : string) (is_public : bool) : Gate :=
  {| gate_base := Event_ctor name base_path is_public;
     formula_ := nullptr;
     mark_ := "" |}.

(** [const FormulaPtr& formula() const] and [Formula* connector() const]. *)
Definition Gate_formula (this : loc) : HeapM pointer :=
  g <- this_gate this;; ret (formula_ g).

Definition Gate_connector (this : loc) : HeapM pointer :=
  g <- this_gate this;; ret (formula_ g).

(** [void formula(FormulaPtr formula)]. *)
Definition Gate_formula_set (this : loc) (formula : pointer) : HeapM unit :=
  g <- this_gate this;;
  assert (negb (to_bool (formula_ g)));;;
  store this (ObjGate {| gate_base := gate_base g;
                         formula_ := formula;
                         mark_ := mark_ g |}).

(** [mark()] and [mark(new_mark)]. *)
Definition Gate_mark (this : loc) : HeapM string :=
  g <- this_gate this;; ret (mark_ g).

Definition Gate_mark_set (this : loc) (new_mark : string) : HeapM unit :=
  g <- this_gate this;;
  store this (ObjGate {| gate_base := gate_base g;
                         formula_ := formula_ g;
                         mark_ := new_mark |}).

(** *** [Formula] *)

(** Modelled from the spec: the constructor [Formula::Formula] is defined in
    the implementation file, which is not part of the sources.  The spec
    gives a formula an operator, a vote number and argument sequences; the
    containers of a new formula are default-constructed, hence empty.
    [vote] and [gather] stand for the values the constructor gives to
    [vote_number_] and [gather_]. *)
Definition Formula_ctor (type : string) (vote : Z) (gather : bool) : Formula :=
  {| type_ := type;
     vote_number_ := vote;
     event_args_ := ∅;
     house_event_args_ := [];
     basic_event_args_ := [];
     gate_args_ := [];
     formula_args_ := [];
     nodes_ := [];
     connectors_ := [];
     gather_ := gather |}.

(** [int num_args() const]. *)
Definition num_args (f : Formula) : Z :=
  to_int (Z.of_nat (size (event_args_ f))
          + Z.of_nat (length (formula_args_ f))).

Definition Formula_num_args (this : loc) : HeapM Z :=
  f <- this_formula this;; ret (num_args f).

(** The three instantiations of the private template [AddArgument], one per
    public overload taking an event pointer. *)
Inductive PtrClass : Type :=
  | HouseEventPtr
  | BasicEventPtr
  | GatePtr.

(** [event->...] through a pointer of class [Ptr]. *)
Definition deref_event (Ptr : PtrClass) (event : pointer) : HeapM Event :=
  fun h => match event with
           | nullptr => Undefined
           | at_ l =>
               match Ptr, h !! l with
               | HouseEventPtr, Some (ObjHouseEvent x) =>
                   Return (primary_base (house_base x)) h
               | BasicEventPtr, Some (ObjBasicEvent x) =>
                   Return (primary_base (basic_base x)) h
               | GatePtr, Some (ObjGate g) => Return (gate_base g) h
               | _, _ => Undefined
               end
           end.

(** [std::map::count] and [std::map::emplace]; the latter leaves the map
    alone when the key is present. *)
Definition map_count (k : string) (m : gmap string pointer) : Z :=
  match m !! k with
  | Some _ => 1
  | None => 0
  end.

Definition map_emplace (k : string) (v : pointer) (m : gmap string pointer)
    : gmap string pointer :=
  match m !! k with
  | Some _ => m
  | None => <[k := v]> m
  end.

(** [event_args_.emplace(id, event)] on a formula. *)
Definition emplace_event_arg (id : string) (event : pointer) (f : Formula)
    : Formula :=
  {| type_ := type_ f;
     vote_number_ := vote_number_ f;
     event_args_ := map_emplace id event (event_args_ f);
     house_event_args_ := house_event_args_ f;
     basic_event_args_ := basic_event_args_ f;
     gate_args_ := gate_args_ f;
     formula_args_ := formula_args_ f;
     nodes_ := nodes_ f;
     connectors_ := connectors_ f;
     gather_ := gather_ f |}.

(** [container->emplace_back(event)], [container] being the vector the
    overload for [Ptr] passes. *)
Definition container_emplace_back (Ptr : PtrClass) (event : pointer)
    (f : Formula) : Formula :=
  {| type_ := type_ f;
     vote_number_ := vote_number_ f;
     event_args_ := event_args_ f;
     house_event_args_ :=
       match Ptr with
       | HouseEventPtr => house_event_args_ f ++ [event]
       | _ => house_event_args_ f
       end;
     basic_event_args_ :=
       match Ptr with
       | BasicEventPtr => basic_event_args_ f ++ [event]
       | _ => basic_event_args_ f
       end;
     gate_args_ :=
       match Ptr with
       | GatePtr => gate_args_ f ++ [event]
       | _ => gate_args_ f
       end;
     formula_args_ := formula_args_ f;
     nodes_ := nodes_ f;
     connectors_ := connectors_ f;
     gather_ := gather_ f |}.

(** The template [AddArgument]. *)
Definition AddArgument (Ptr : PtrClass) (this : loc) (event : pointer)
    : HeapM unit :=
  f <- this_formula this;;
  ev <- deref_event Ptr event;;
  if negb (map_count (id_ ev) (event_args_ f) =? 0)%Z then
    ev' <- deref_event Ptr event;;
    throw DuplicateArgumentError ("Duplicate argument " +:+ name_ ev')
  else
    ev' <- deref_event Ptr event;;
    store this (ObjFormula (emplace_event_arg (id_ ev') event f));;;
    f' <- this_formula this;;
    store this (ObjFormula (container_emplace_back Ptr event f')).

(** The public overloads. *)
Definition AddArgument_house (this : loc) (event : pointer) : HeapM unit :=
  AddArgument HouseEventPtr this event.

Definition AddArgument_basic (this : loc) (event : pointer) : HeapM unit :=
  AddArgument BasicEventPtr this event.

Definition AddArgument_gate (this : loc) (event : pointer) : HeapM unit :=
  AddArgument GatePtr this event.

(** The id of the event a pointer of class [Ptr] points to, if any. *)
Definition id_at (h : Heap) (arg : PtrClass * pointer) : option string :=
  match deref_event arg.1 arg.2 h with
  | Return ev _ => Some (id_ ev)
  | _ => None
  end.

(** *** Programs

    The calls that change the heap: the creation of an object and the
    non-const member functions above, each on the object at [this].  A
    program is a sequence of calls; it runs as long as the calls return. *)
Inductive Call : Type :=
  | call_new (o : Object)
  | call_orphan (this : loc) (state : bool)
  | call_state (this : loc) (constant : bool)
  | call_expression (this : loc) (expression : pointer)
  | call_ccf_gate (this : loc) (gate : pointer)
  | call_formula (this : loc) (formula : pointer)
  | call_mark (this : loc) (new_mark : string)
  | call_AddArgument (Ptr : PtrClass) (this : loc) (event : pointer).

Definition do_call (c : Call) : HeapM unit :=
  match c with
  | call_new o => alloc o;;; ret tt
  | call_orphan this state => Event_orphan_set this state
  | call_state this constant => HouseEvent_state_set this constant
  | call_expression this e => BasicEvent_expression_set this e
  | call_ccf_gate this g => BasicEvent_ccf_gate_set this g
  | call_formula this f => Gate_formula_set this f
  | call_mark this m => Gate_mark_set this m
  | call_AddArgument Ptr this event => AddArgument Ptr this event
  end.

Fixpoint do_calls (cs : list Call) : HeapM unit :=
  match cs with
  | [] => ret tt
  | c :: cs' => do_call c;;; do_calls cs'
  end.

(** The call assigns a CCF gate to the basic event at [this]:
    [ccf_gate(gate)] on it with an actual gate. *)
Definition assigns_ccf_gate (this : loc) (c : Call) : bool :=
  match c with
  | call_ccf_gate l (at_ _) => bool_decide (l = this)
  | _ => false
  end.

(** The event argument the call hands to the formula at [this], if the call
    is an [AddArgument] on it. *)
Definition added_to (this : loc) (c : Call) : option (PtrClass * pointer) :=
  match c with
  | call_AddArgument Ptr l event =>
      if decide (l = this) then Some (Ptr, event) else None
  | _ => None
  end.

(** Modelled from the spec: the type strings are compared in the
    implementation file, which is not part of the sources.  The spec lists
    the operators and the tags naming them: and, or, not, nor, nand, xor,
    null and atleast. *)
Inductive Operator : Type :=
  | kAnd | kOr | kNot | kNor | kNand | kXor | kNull | kAtleast.

Definition operator_of_type (type : string) : option Operator :=
  if decide (type = "and") then Some kAnd
  else if decide (type = "or") then Some kOr
  else if decide (type = "not") then Some kNot
  else if decide (type = "nor") then Some kNor
  else if decide (type = "nand") then Some kNand
  else if decide (type = "xor") then Some kXor
  else if decide (type = "null") then Some kNull
  else if decide (type = "atleast") then Some kAtleast
  else None.

(** Modelled from the spec: the sets [kSingle_] and [kTwoOrMore_] are only
    declared in the header.  The spec has NULL and NOT take exactly one
    argument and AND, OR, NAND, NOR and XOR two or more. *)
Definition kSingle_ (op : Operator) : bool :=
  match op with
  | kNot | kNull => true
  | _ => false
  end.

Definition kTwoOrMore_ (op : Operator) : bool :=
  match op with
  | kAnd | kOr | kNand | kNor | kXor => true
  | _ => false
  end.

Definition is_atleast (op : Operator) : bool :=
  match op with
  | kAtleast => true
  | _ => false
  end.

(** Modelled from the spec: [Formula::Validate] is defined in the
    implementation file, which is not part of the sources.  The spec has it
    check the arity rule of the operator and, for ATLEAST, two or more
    arguments and a vote number [k] with [2 <= k < n]; a violation is a
    ValidationError.  A formula whose type names no operator is outside the
    spec's data model. *)
Definition Formula_Validate (this : loc) : HeapM unit :=
  f <- this_formula this;;
  match operator_of_type (type_ f) with
  | None => undefined
  | Some op =>
      let size := num_args f in
      if kTwoOrMore_ op && (size <? 2)%Z then
        throw ValidationError
          (type_ f +:+ " formula must have 2 or more arguments.")
      else if kSingle_ op && negb (size =? 1)%Z then
        throw ValidationError
          (type_ f +:+ " formula must have only one argument.")
      else if is_atleast op
              && negb ((2 <=? size)%Z && (2 <=? vote_number_ f)%Z
                       && (vote_number_ f <? size)%Z) then
        throw ValidationError
          (type_ f +:+ " formula has an invalid vote number.")
      else ret tt
  end.

(** The arity rule of each operator, in the words of the spec, for [n]
    arguments and vote number [k]. *)
Definition arity_rule (op : Operator) (n k : Z) : Prop :=
  match op with
  | kNull | kNot => n = 1%Z
  | kAnd | kOr | kNand | kNor | kXor => (2 <= n)%Z
  | kAtleast => (2 <= n)%Z /\ (2 <= k < n)%Z
  end.

(** ** Sample objects

    A small heap used to run the definitions: two basic events whose names
    differ only in case, two expressions (one with support inside the unit
    interval, one outside), a basic event attached to each of them, a house
    event, a gate and an empty AND formula. *)

Definition inside_unit : Expression :=
  {| Mean := 0.25%float; Min := 0.125%float; Max := 0.5%float |}.

Definition outside_unit : Expression :=
  {| Mean := 0.75%float; Min := 0.5%float; Max := 1.5%float |}.

Definition valve_two : BasicEvent :=
  {| basic_base :=
       set_has_expression true (PrimaryEvent_ctor "ValveTwo" "" true);
     expression_ := at_ 2%positive;
     ccf_gate_ := nullptr |}.

Definition valve_three : BasicEvent :=
  {| basic_base :=
       set_has_expression true (PrimaryEvent_ctor "ValveThree" "" true);
     expression_ := at_ 3%positive;
     ccf_gate_ := nullptr |}.

Definition sample_heap : Heap :=
  {[ 1%positive := ObjBasicEvent (BasicEvent_ctor "PumpOne" "" true);
     2%positive := ObjExpression inside_unit;
     3%positive := ObjExpression outside_unit;
     4%positive := ObjHouseEvent (HouseEvent_ctor "Switch" "" true);
     5%positive := ObjGate (Gate_ctor "TopGate" "" true);
     6%positive := ObjFormula (Formula_ctor "and" 0 true);
     7%positive := ObjBasicEvent (BasicEvent_ctor "pumpone" "" true);
     8%positive := ObjBasicEvent valve_two;
     9%positive := ObjBasicEvent valve_three ]}.

(** A program on the sample heap: calls on the first basic event mixed with
    calls on other objects. *)
Definition sample_program : list Call :=
  [call_expression 1%positive (at_ 2%positive);
   call_state 4%positive true;
   call_ccf_gate 1%positive (at_ 5%positive);
   call_AddArgument BasicEventPtr 6%positive (at_ 1%positive);
   call_orphan 1%positive true].

(** ** Reading a program

    What a program does to one object can be read off its calls: the value a
    field holds after the program is the argument of the last call that
    writes it, and a field guarded by an assertion is written by at most one
    call. *)

#[global] Instance PtrClass_eq_dec : EqDecision PtrClass.
Proof. solve_decision. Defined.

(** The orphan flag, the house state and the gate mark of the object at
    [this] after one call, given what they were before it. *)
Definition orphan_after (this : loc) (c : Call) (s : bool) : bool :=
  match c with
  | call_orphan l state => if decide (l = this) then state else s
  | _ => s
  end.

Definition state_after (this : loc) (c : Call) (s : bool) : bool :=
  match c with
  | call_state l constant => if decide (l = this) then constant else s
  | _ => s
  end.

Definition mark_after (this : loc) (c : Call) (m : string) : string :=
  match c with
  | call_mark l new_mark => if decide (l = this) then new_mark else m
  | _ => m
  end.

(** The call is [state(constant)] on the house event at [this]. *)
Definition is_state_call (this : loc) (c : Call) : bool :=
  match c with
  | call_state l _ => bool_decide (l = this)
  | _ => false
  end.

(** The call is [expression(e)] on the basic event at [this], with any
    pointer, and with an actual expression. *)
Definition is_expression_call (this : loc) (c : Call) : bool :=
  match c with
  | call_expression l _ => bool_decide (l = this)
  | _ => false
  end.

Definition assigns_expression (this : loc) (c : Call) : bool :=
  match c with
  | call_expression l (at_ _) => bool_decide (l = this)
  | _ => false
  end.

(** The call is [formula(f)] on the gate at [this] with an actual formula. *)
Definition assigns_formula (this : loc) (c : Call) : bool :=
  match c with
  | call_formula l (at_ _) => bool_decide (l = this)
  | _ => false
  end.

(** The pointer the call hands to the formula at [this] through the
    overload for [Ptr], if the call is such an [AddArgument]. *)
Definition added_as (Ptr : PtrClass) (this : loc) (c : Call) : option pointer :=
  match c with
  | call_AddArgument Ptr' l event =>
      if decide (l = this /\ Ptr' = Ptr) then Some event else None
  | _ => None
  end.

(** The event arguments of a formula, each with the class of the vector
    that holds it: house events, then basic events, then gates. *)
Definition typed_args (f : Formula) : list (PtrClass * pointer) :=
  (pair HouseEventPtr <$> house_event_args_ f)
  ++ (pair BasicEventPtr <$> basic_event_args_ f)
  ++ (pair GatePtr <$> gate_args_ f).

(** The vector of a formula that the overload for [Ptr] passes to the
    template. *)
Definition container (Ptr : PtrClass) (f : Formula) : list pointer :=
  match Ptr with
  | HouseEventPtr => house_event_args_ f
  | BasicEventPtr => basic_event_args_ f
  | GatePtr => gate_args_ f
  end.

(** The event map and the typed vectors of a formula describe the same
    arguments: every pointer in a vector is in the map under the id of its
    event, every entry of the map is a pointer of some vector under the id
    of its event, the events in the vectors have distinct ids, and the map
    has as many entries as the vectors have elements. *)
Definition args_consistent (h : Heap) (f : Formula) : Prop :=
  (forall arg, arg ∈ typed_args f ->
               exists id, id_at h arg = Some id
                          /\ event_args_ f !! id = Some arg.2)
  /\ (forall id p, event_args_ f !! id = Some p ->
                   exists Ptr, (Ptr, p) ∈ typed_args f
                               /\ id_at h (Ptr, p) = Some id)
  /\ NoDup (id_at h <$> typed_args f)
  /\ size (event_args_ f) = length (typed_args f).

(** The calls that fail an assertion are the three guarded assignments, made
    on an object whose pointer is already set. *)
Definition assigned_twice (h : Heap) (c : Call) : Prop :=
  match c with
  | call_expression l _ =>
      exists bev, h !! l = Some (ObjBasicEvent bev)
                  /\ to_bool (expression_ bev) = true
  | call_ccf_gate l _ =>
      exists bev, h !! l = Some (ObjBasicEvent bev)
                  /\ to_bool (ccf_gate_ bev) = true
  | call_formula l _ =>
      exists gt, h !! l = Some (ObjGate gt) /\ to_bool (formula_ gt) = true
  | _ => False
  end.

(** A computation that, when it returns or throws, hands back the heap it
    was given. *)
Definition preserves_heap {A : Type} (m : HeapM A) : Prop :=
  forall h : Heap,
    match m h with
    | Return _ h' => h' = h
    | Throw _ h' => h' = h
    | Abort | Undefined => True
    end.

(** A basic event whose expression has NaN bounds, a gate, a house event
    and a formula, for running the definitions of this section. *)
Definition nan_bounds : Expression :=
  {| Mean := 0.5%float; Min := nan; Max := nan |}.

Definition second_heap : Heap :=
  {[ 1%positive := ObjBasicEvent
                     {| basic_base :=
                          set_has_expression true
                            (PrimaryEvent_ctor "Sensor" "" true);
                        expression_ := at_ 2%positive;
                        ccf_gate_ := nullptr |};
     2%positive := ObjExpression nan_bounds;
     3%positive := ObjGate (Gate_ctor "Top" "" true);
     4%positive := ObjHouseEvent (HouseEvent_ctor "Maintenance" "" true);
     5%positive := ObjFormula (Formula_ctor "or" 0 true);
     6%positive := ObjBasicEvent (BasicEvent_ctor "Valve" "" true);
     7%positive := ObjGate (Gate_ctor "valve" "" true);
     8%positive := ObjFormula (Formula_ctor "and" 0 true) ]}.

Definition second_program : list Call :=
  [call_AddArgument BasicEventPtr 5%positive (at_ 1%positive);
   call_mark 3%positive "temp";
   call_state 4%positive true;
   call_AddArgument HouseEventPtr 5%positive (at_ 4%positive);
   call_formula 3%positive (at_ 5%positive);
   call_orphan 1%positive true;
   call_expression 6%positive nullptr;
   call_state 4%positive false;
   call_AddArgument GatePtr 5%positive (at_ 3%positive);
   call_mark 3%positive "perm"].

(** A program whose last call adds a gate with the id of a basic event
    added before. *)
Definition failing_program : list Call :=
  [call_AddArgument BasicEventPtr 8%positive (at_ 6%positive);
   call_mark 7%positive "temp";
   call_AddArgument GatePtr 8%positive (at_ 7%positive);
   call_orphan 6%positive true].

(** * Properties *)

(** ** The exception hierarchy *)

Lemma derives_inv c d :
  derives c d -> c = d \/ exists b, base c = Some b /\ derives b d.
Proof. destruct 1; eauto. Qed.

Ltac invert_derives H :=
  repeat (apply derives_inv in H;
          destruct H as [H | (? & [= <-] & H)]; [discriminate H |]);
  apply derives_inv in H; destruct H as [H | (? & [=] & _)]; discriminate H.

(** The executable test agrees with the derivation relation. *)
Lemma is_a_spec c d : is_a c d = true <-> derives c d.
Proof.
  split.
  - destruct c, d; vm_compute; intros H; try discriminate H;
      repeat first [ apply derives_refl
                   | eapply derives_base; [reflexivity |] ].
  - intros H. destruct c, d; try reflexivity; exfalso; invert_derives H.
Qed.

(** C8: RedefinitionError, DuplicateArgumentError, UndefinedElement and
    CycleError are each derived from ValidationError (directly), so every
    exception of one of these four classes is a ValidationError and a
    handler for ValidationError is entered for it; the four classes are
    distinct from ValidationError, which derives from none of them. *)
Theorem validation_error_subtypes :
  Forall (fun c =>
            base c = Some ValidationError
            /\ derives c ValidationError
            /\ ~ derives ValidationError c
            /\ (forall msg, catches ValidationError (mkException c msg) = true)
            /\ (forall (St A : Type) msg (handler : Exception -> M St A) s,
                  try_catch (throw c msg) ValidationError handler s
                  = handler (mkException c msg) s))
         [RedefinitionError; DuplicateArgumentError; UndefinedElement;
          CycleError].
Proof.
  repeat constructor; try (apply is_a_spec; reflexivity);
    intros H; apply is_a_spec in H; discriminate H.
Qed.

(** ** Comparison of doubles *)

Lemma SFcompare_swap x y :
  SFcompare y x = match SFcompare x y with
                  | Some c => Some (CompOpp c)
                  | None => None
                  end.
Proof.
  destruct x as [[]|[]| |[] mx ex], y as [[]|[]| |[] my ey];
    simpl; try reflexivity.
  all: rewrite (Z.compare_antisym ex ey); destruct (ex ?= ey)%Z;
    simpl; try reflexivity.
  all: rewrite ?CompOpp_involutive;
    first [ rewrite (Pos.compare_cont_antisym my mx Eq)
          | rewrite (Pos.compare_cont_antisym mx my Eq) ]; reflexivity.
Qed.

(** [x <= y] excludes [y < x] (and is false when an operand is NaN). *)
Lemma double_le_not_gt x y : double_le x y = true -> double_gt x y = false.
Proof.
  unfold double_le, double_gt.
  rewrite leb_spec, ltb_spec. unfold SFleb, SFltb.
  rewrite (SFcompare_swap (Prim2SF x) (Prim2SF y)).
  destruct (SFcompare (Prim2SF x) (Prim2SF y)) as [[]|]; simpl; congruence.
Qed.

(** ** [BasicEvent] *)

Ltac unfold_monad :=
  unfold bind, ret, throw, assert, undefined, store, this_basic, this_house,
    this_formula, this_gate, this_event, deref_expression in *.

(** C1: for a basic event whose expression is set, [Validate()] throws
    ValidationError if and only if [Min() < 0] or [Max() > 1], and returns
    otherwise; in particular it returns when the bounds lie in [0, 1].  The
    heap is the same after the call in both cases. *)
Theorem BasicEvent_Validate_range (h : Heap) this b e ex :
  h !! this = Some (ObjBasicEvent b) ->
  expression_ b = at_ e ->
  h !! e = Some (ObjExpression ex) ->
  (BasicEvent_Validate this h
   = Throw (mkException ValidationError "Expression value is invalid.") h
   <-> double_lt (Min ex) 0%float = true \/ double_gt (Max ex) 1%float = true)
  /\ (BasicEvent_Validate this h = Return tt h
      <-> double_lt (Min ex) 0%float = false
          /\ double_gt (Max ex) 1%float = false)
  /\ (double_le 0%float (Min ex) = true -> double_le (Max ex) 1%float = true ->
      BasicEvent_Validate this h = Return tt h).
Proof.
  intros Hthis He Hex.
  assert (Hrun : BasicEvent_Validate this h
                 = if double_lt (Min ex) 0%float then
                     Throw (mkException ValidationError
                              "Expression value is invalid.") h
                   else if double_gt (Max ex) 1%float then
                     Throw (mkException ValidationError
                              "Expression value is invalid.") h
                   else Return tt h).
  { unfold BasicEvent_Validate. unfold_monad.
    rewrite Hthis, He, Hex.
    destruct (double_lt (Min ex) 0%float); [reflexivity |].
    rewrite Hex. destruct (double_gt (Max ex) 1%float); reflexivity. }
  rewrite Hrun. split; [| split].
  - destruct (double_lt (Min ex) 0%float), (double_gt (Max ex) 1%float);
      intuition congruence.
  - destruct (double_lt (Min ex) 0%float), (double_gt (Max ex) 1%float);
      intuition congruence.
  - intros Hmin Hmax.
    apply double_le_not_gt in Hmin, Hmax.
    unfold double_gt in Hmin. unfold double_lt. rewrite Hmin, Hmax.
    reflexivity.
Qed.

(** C5: for a basic event whose expression is set, [p()] returns the
    [Mean()] of that expression and leaves the heap, hence the event and the
    expression, as they were. *)
Theorem BasicEvent_p_mean (h : Heap) this b e ex :
  h !! this = Some (ObjBasicEvent b) ->
  expression_ b = at_ e ->
  h !! e = Some (ObjExpression ex) ->
  BasicEvent_p this h = Return (Mean ex) h.
Proof.
  intros Hthis He Hex. unfold BasicEvent_p. unfold_monad.
  rewrite Hthis, He. simpl. rewrite Hex. reflexivity.
Qed.

Lemma BasicEvent_Validate_range_witness :
  BasicEvent_Validate 8%positive sample_heap = Return tt sample_heap
  /\ BasicEvent_Validate 9%positive sample_heap
     = Throw (mkException ValidationError "Expression value is invalid.")
         sample_heap.
Proof.
  split.
  - apply (BasicEvent_Validate_range sample_heap 8%positive valve_two
             2%positive inside_unit); reflexivity.
  - apply (BasicEvent_Validate_range sample_heap 9%positive valve_three
             3%positive outside_unit); try reflexivity.
    right. reflexivity.
Defined.

Lemma BasicEvent_p_mean_witness :
  BasicEvent_p 8%positive sample_heap = Return 0.25%float sample_heap.
Proof.
  apply (BasicEvent_p_mean sample_heap 8%positive valve_two
           2%positive inside_unit); reflexivity.
Defined.

(** The three changing member functions, run on a heap that has a basic
    event at [this]. *)
Lemma Event_orphan_set_basic (h : Heap) this b state :
  h !! this = Some (ObjBasicEvent b) ->
  Event_orphan_set this state h
  = Return tt
      (<[this := ObjBasicEvent
                   {| basic_base :=
                        set_primary_base
                          {| role := role (primary_base (basic_base b));
                             id_ := id_ (primary_base (basic_base b));
                             name_ := name_ (primary_base (basic_base b));
                             orphan_ := state |} (basic_base b);
                      expression_ := expression_ b;
                      ccf_gate_ := ccf_gate_ b |}]> h).
Proof. intros Hthis. unfold Event_orphan_set. rewrite Hthis. reflexivity. Qed.

Lemma BasicEvent_expression_set_run (h : Heap) this b expression :
  h !! this = Some (ObjBasicEvent b) ->
  BasicEvent_expression_set this expression h
  = if to_bool (expression_ b) then Abort
    else Return tt
           (<[this := ObjBasicEvent
                        {| basic_base := set_has_expression true (basic_base b);
                           expression_ := expression;
                           ccf_gate_ := ccf_gate_ b |}]> h).
Proof.
  intros Hthis.
  unfold BasicEvent_expression_set, PrimaryEvent_has_expression_set.
  unfold_monad. rewrite Hthis.
  destruct (to_bool (expression_ b)); simpl; [reflexivity |].
  rewrite Hthis. simpl. rewrite lookup_insert_eq, insert_insert_eq.
  reflexivity.
Qed.

Lemma BasicEvent_ccf_gate_set_run (h : Heap) this b gate :
  h !! this = Some (ObjBasicEvent b) ->
  BasicEvent_ccf_gate_set this gate h
  = if to_bool (ccf_gate_ b) then Abort
    else Return tt
           (<[this := ObjBasicEvent
                        {| basic_base := basic_base b;
                           expression_ := expression_ b;
                           ccf_gate_ := gate |}]> h).
Proof.
  intros Hthis. unfold BasicEvent_ccf_gate_set. unfold_monad. rewrite Hthis.
  destruct (to_bool (ccf_gate_ b)); reflexivity.
Qed.

(** A returning assignment found the pointer null. *)
Lemma BasicEvent_expression_set_returns this expression (h h1 : Heap) :
  BasicEvent_expression_set this expression h = Return tt h1 ->
  exists b,
    h !! this = Some (ObjBasicEvent b)
    /\ expression_ b = nullptr
    /\ h1 = <[this := ObjBasicEvent
                        {| basic_base := set_has_expression true (basic_base b);
                           expression_ := expression;
                           ccf_gate_ := ccf_gate_ b |}]> h.
Proof.
  intros Hrun.
  assert (exists b, h !! this = Some (ObjBasicEvent b)) as [b Hthis].
  { unfold BasicEvent_expression_set in Hrun. unfold_monad.
    destruct (h !! this) as [[] |]; try discriminate. eauto. }
  rewrite (BasicEvent_expression_set_run h this b expression Hthis) in Hrun.
  destruct (expression_ b) eqn:Hnull; [| discriminate].
  injection Hrun as <-. exists b. rewrite Hnull. auto.
Qed.

Lemma BasicEvent_ccf_gate_set_returns this gate (h h1 : Heap) :
  BasicEvent_ccf_gate_set this gate h = Return tt h1 ->
  exists b,
    h !! this = Some (ObjBasicEvent b)
    /\ ccf_gate_ b = nullptr
    /\ h1 = <[this := ObjBasicEvent
                        {| basic_base := basic_base b;
                           expression_ := expression_ b;
                           ccf_gate_ := gate |}]> h.
Proof.
  intros Hrun.
  assert (exists b, h !! this = Some (ObjBasicEvent b)) as [b Hthis].
  { unfold BasicEvent_ccf_gate_set in Hrun. unfold_monad.
    destruct (h !! this) as [[] |]; try discriminate. eauto. }
  rewrite (BasicEvent_ccf_gate_set_run h this b gate Hthis) in Hrun.
  destruct (ccf_gate_ b) eqn:Hnull; [| discriminate].
  injection Hrun as <-. exists b. rewrite Hnull. auto.
Qed.

(** C4, as the code has it: the expression can be assigned once.  After a
    successful call [expression(e)] with an actual expression [e], the event
    holds [e] and [has_expression()] is true, and any further call
    [expression(e')] fails the assertion [!expression_] and aborts; no
    exception is thrown and no modified event results. *)
Theorem BasicEvent_expression_once (h h1 : Heap) this e :
  BasicEvent_expression_set this (at_ e) h = Return tt h1 ->
  (exists b1, h1 !! this = Some (ObjBasicEvent b1)
              /\ expression_ b1 = at_ e
              /\ PrimaryEvent_has_expression this h1 = Return true h1)
  /\ forall e', BasicEvent_expression_set this e' h1 = Abort.
Proof.
  intros Hset.
  apply BasicEvent_expression_set_returns in Hset.
  destruct Hset as (b & Hthis & Hnull & ->).
  split.
  - eexists. split; [apply lookup_insert_eq |]. split; [reflexivity |].
    unfold PrimaryEvent_has_expression. rewrite lookup_insert_eq. reflexivity.
  - intros e'.
    erewrite BasicEvent_expression_set_run by apply lookup_insert_eq.
    reflexivity.
Qed.

Lemma BasicEvent_expression_once_witness :
  exists h1,
    BasicEvent_expression_set 1%positive (at_ 2%positive) sample_heap
    = Return tt h1
    /\ BasicEvent_expression_set 1%positive (at_ 3%positive) h1 = Abort.
Proof.
  eexists. split; [reflexivity |].
  apply (BasicEvent_expression_once sample_heap _ 1%positive 2%positive).
  reflexivity.
Defined.

(** C4, as stated, fails: the second assignment does not raise LogicError
    (nor any exception); the assertion aborts the program. *)
Lemma BasicEvent_expression_reassign_no_LogicError :
  exists h1,
    BasicEvent_expression_set 1%positive (at_ 2%positive) sample_heap
    = Return tt h1
    /\ BasicEvent_expression_set 1%positive (at_ 3%positive) h1 = Abort
    /\ ~ (exists msg h2,
            BasicEvent_expression_set 1%positive (at_ 3%positive) h1
            = Throw (mkException LogicError msg) h2).
Proof.
  eexists. split; [reflexivity |]. split; [reflexivity |].
  intros (msg & h2 & H). vm_compute in H. discriminate H.
Qed.

Lemma BasicEvent_HasCcf_run (h : Heap) this b :
  h !! this = Some (ObjBasicEvent b) ->
  BasicEvent_HasCcf this h = Return (to_bool (ccf_gate_ b)) h.
Proof.
  intros Hthis. unfold BasicEvent_HasCcf. unfold_monad. rewrite Hthis.
  destruct (to_bool (ccf_gate_ b)); reflexivity.
Qed.

Lemma BasicEvent_ccf_gate_run (h : Heap) this b :
  h !! this = Some (ObjBasicEvent b) ->
  BasicEvent_ccf_gate this h
  = if to_bool (ccf_gate_ b) then Return (ccf_gate_ b) h else Abort.
Proof.
  intros Hthis. unfold BasicEvent_ccf_gate. unfold_monad. rewrite Hthis.
  destruct (to_bool (ccf_gate_ b)); reflexivity.
Qed.

(** ** [HouseEvent] *)

(** C6: on a house event, [state(b)] returns, after which [state()] returns
    [b] and [has_expression()] returns true, while [id()], [name()] and
    [orphan()] return what they returned before; every other object of the
    heap is untouched. *)
Theorem HouseEvent_state_frame (h : Heap) this x b :
  h !! this = Some (ObjHouseEvent x) ->
  exists h',
    HouseEvent_state_set this b h = Return tt h'
    /\ HouseEvent_state this h' = Return b h'
    /\ PrimaryEvent_has_expression this h' = Return true h'
    /\ (exists i, Event_id this h = Return i h
                  /\ Event_id this h' = Return i h')
    /\ (exists n, Event_name this h = Return n h
                  /\ Event_name this h' = Return n h')
    /\ (exists o, Event_orphan this h = Return o h
                  /\ Event_orphan this h' = Return o h')
    /\ forall l, l <> this -> h' !! l = h !! l.
Proof.
  intros Hthis.
  exists (<[this := ObjHouseEvent
                      {| house_base := set_has_expression true (house_base x);
                         state_ := b |}]> h).
  split.
  { unfold HouseEvent_state_set, PrimaryEvent_has_expression_set.
    unfold_monad. rewrite Hthis. simpl.
    rewrite lookup_insert_eq, insert_insert_eq. reflexivity. }
  unfold HouseEvent_state, PrimaryEvent_has_expression, Event_id, Event_name,
    Event_orphan.
  unfold_monad. rewrite Hthis, lookup_insert_eq. simpl.
  repeat split; eauto.
  intros l Hl. by rewrite lookup_insert_ne.
Qed.

Lemma HouseEvent_state_frame_witness :
  exists h',
    HouseEvent_state_set 4%positive true sample_heap = Return tt h'
    /\ HouseEvent_state 4%positive h' = Return true h'
    /\ PrimaryEvent_has_expression 4%positive h' = Return true h'
    /\ Event_id 4%positive h' = Return "switch" h'
    /\ Event_name 4%positive h' = Return "Switch" h'.
Proof.
  destruct (HouseEvent_state_frame sample_heap 4%positive
              (HouseEvent_ctor "Switch" "" true) true eq_refl)
    as (h' & Hset & Hstate & Hflag & _).
  exists h'. split; [exact Hset |]. split; [exact Hstate |].
  split; [exact Hflag |].
  vm_compute in Hset. injection Hset as <-. split; reflexivity.
Defined.

(** ** [Event] *)

Lemma to_lower_ascii_idemp c :
  to_lower_ascii (to_lower_ascii c) = to_lower_ascii c.
Proof.
  destruct c as [[] [] [] [] [] [] [] []]; reflexivity.
Qed.

Lemma to_lower_idemp s : to_lower (to_lower s) = to_lower s.
Proof.
  induction s as [| c s IH]; simpl; [reflexivity |].
  by rewrite to_lower_ascii_idemp, IH.
Qed.

(** C7: an event constructed with name [n] has [name()] equal to [n],
    capitalisation included, and [id()] equal to the lower-cased [n], a
    string that lower-casing leaves alone; this holds for house events,
    basic events and gates placed on the heap.  Two events are the same by
    identity exactly when their ids are equal; for constructed events,
    exactly when their names agree up to case. *)
Theorem Event_ctor_identifier n base_path is_public :
  name_ (Event_ctor n base_path is_public) = n
  /\ id_ (Event_ctor n base_path is_public) = to_lower n
  /\ to_lower (id_ (Event_ctor n base_path is_public))
     = id_ (Event_ctor n base_path is_public)
  /\ (forall h : Heap,
        Forall (fun o =>
                  exists l h', alloc o h = Return l h'
                               /\ Event_name l h' = Return n h'
                               /\ Event_id l h' = Return (to_lower n) h')
               [ObjHouseEvent (HouseEvent_ctor n base_path is_public);
                ObjBasicEvent (BasicEvent_ctor n base_path is_public);
                ObjGate (Gate_ctor n base_path is_public)])
  /\ (forall e1 e2, same_identity e1 e2 = true <-> id_ e1 = id_ e2)
  /\ (forall n' base_path' is_public',
        same_identity (Event_ctor n base_path is_public)
                      (Event_ctor n' base_path' is_public') = true
        <-> to_lower n = to_lower n').
Proof.
  split; [reflexivity |]. split; [reflexivity |].
  split; [apply to_lower_idemp |]. split; [| split].
  - intros h. repeat constructor.
    all: unfold alloc; do 2 eexists; split; [reflexivity |].
    all: unfold Event_name, Event_id; unfold_monad.
    all: rewrite lookup_insert_eq; split; reflexivity.
  - intros e1 e2. unfold same_identity. apply bool_decide_eq_true.
  - intros n' bp' pub'. unfold same_identity. simpl.
    apply bool_decide_eq_true.
Qed.

Lemma Event_ctor_identifier_witness :
  name_ (Event_ctor "PumpOne" "" true) = "PumpOne"
  /\ id_ (Event_ctor "PumpOne" "" true) = "pumpone"
  /\ same_identity (Event_ctor "PumpOne" "" true)
                   (Event_ctor "pumpone" "" true) = true.
Proof.
  destruct (Event_ctor_identifier "PumpOne" "" true)
    as (Hname & Hid & _ & _ & _ & Hsame).
  split; [exact Hname |]. split; [exact Hid |].
  apply Hsame. reflexivity.
Defined.

(** ** [Formula] *)

Lemma deref_event_heap Ptr event (h h' : Heap) ev :
  deref_event Ptr event h = Return ev h' -> h' = h.
Proof.
  unfold deref_event. destruct event as [| l]; [discriminate |].
  destruct Ptr, (h !! l) as [[]|]; try discriminate; congruence.
Qed.

(** The result of one [AddArgument] call. *)
Lemma AddArgument_run Ptr this event (h : Heap) f ev :
  h !! this = Some (ObjFormula f) ->
  deref_event Ptr event h = Return ev h ->
  AddArgument Ptr this event h
  = match event_args_ f !! id_ ev with
    | Some _ =>
        Throw (mkException DuplicateArgumentError
                 ("Duplicate argument " +:+ name_ ev)) h
    | None =>
        Return tt
          (<[this := ObjFormula
                       (container_emplace_back Ptr event
                          (emplace_event_arg (id_ ev) event f))]> h)
    end.
Proof.
  intros Hthis Hev. unfold AddArgument. unfold_monad.
  rewrite Hthis, Hev. unfold map_count.
  destruct (event_args_ f !! id_ ev) as [p |] eqn:Hlookup; simpl.
  - rewrite Hev. reflexivity.
  - rewrite Hev, lookup_insert_eq, insert_insert_eq. reflexivity.
Qed.

Lemma AddArgument_cases Ptr this event (h : Heap) :
  (exists f ev, h !! this = Some (ObjFormula f)
                /\ deref_event Ptr event h = Return ev h)
  \/ AddArgument Ptr this event h = Undefined.
Proof.
  unfold AddArgument. unfold_monad.
  destruct (h !! this) as [[| | | | f]|]; auto.
  destruct (deref_event Ptr event h) as [ev h1 | | |] eqn:Hev; auto.
  - pose proof (deref_event_heap _ _ _ _ _ Hev) as ->. left. eauto.
  - unfold deref_event in Hev. destruct event as [| l]; [discriminate |].
    destruct Ptr, (h !! l) as [[]|]; discriminate.
  - unfold deref_event in Hev. destruct event as [| l]; [discriminate |].
    destruct Ptr, (h !! l) as [[]|]; discriminate.
Qed.

Lemma to_int_range n : (- 2 ^ 31 <= to_int n < 2 ^ 31)%Z.
Proof.
  unfold to_int. pose proof (Z.mod_pos_bound (n + 2 ^ 31) (2 ^ 32)). lia.
Qed.

Lemma to_int_succ n : to_int (n + 1) = to_int (to_int n + 1).
Proof.
  unfold to_int.
  replace (((n + 2 ^ 31) mod 2 ^ 32 - 2 ^ 31 + 1 + 2 ^ 31))%Z
    with ((n + 2 ^ 31) mod 2 ^ 32 + 1)%Z by lia.
  replace (n + 1 + 2 ^ 31)%Z with ((n + 2 ^ 31) + 1)%Z by lia.
  rewrite (Z.add_mod_idemp_l (n + 2 ^ 31) 1 (2 ^ 32)) by lia.
  reflexivity.
Qed.

Lemma to_int_small n : (- 2 ^ 31 <= n < 2 ^ 31)%Z -> to_int n = n.
Proof.
  intros Hn. unfold to_int. rewrite Z.mod_small by lia. lia.
Qed.

(** C9: [AddArgument] on a formula either throws DuplicateArgumentError and
    leaves the heap, hence the formula with its event map, its typed
    sequences and its [num_args()], exactly as it was, or returns with only
    the formula changed and its argument count larger by exactly one, so
    that [num_args()], the count as an [int], is one more than before.  It
    fails no assertion, and is undefined only when [event] does not point to
    an event of the class of the overload. *)
Theorem AddArgument_atomic Ptr this event (h : Heap) f :
  h !! this = Some (ObjFormula f) ->
  match AddArgument Ptr this event h with
  | Throw ex h' =>
      dynamic_class ex = DuplicateArgumentError
      /\ h' = h
      /\ Formula_num_args this h' = Return (num_args f) h'
  | Return _ h' =>
      exists f',
        h' = <[this := ObjFormula f']> h
        /\ size (event_args_ f') + length (formula_args_ f')
           = S (size (event_args_ f) + length (formula_args_ f))
        /\ num_args f' = to_int (num_args f + 1)
        /\ ((num_args f < INT_MAX)%Z -> num_args f' = (num_args f + 1)%Z)
  | Abort => False
  | Undefined => forall ev, deref_event Ptr event h <> Return ev h
  end.
Proof.
  intros Hthis.
  destruct (AddArgument_cases Ptr this event h)
    as [(f0 & ev & Hf0 & Hev) | Hub].
  - rewrite Hthis in Hf0. injection Hf0 as <-.
    rewrite (AddArgument_run Ptr this event h f ev Hthis Hev).
    destruct (event_args_ f !! id_ ev) as [p |] eqn:Hlookup.
    + split; [reflexivity |]. split; [reflexivity |].
      unfold Formula_num_args. unfold_monad. rewrite Hthis. reflexivity.
    + eexists. split; [reflexivity |].
      assert (Hsize :
        size (event_args_ (container_emplace_back Ptr event
                             (emplace_event_arg (id_ ev) event f)))
        + length (formula_args_ (container_emplace_back Ptr event
                                   (emplace_event_arg (id_ ev) event f)))
        = S (size (event_args_ f) + length (formula_args_ f))).
      { simpl. unfold map_emplace. rewrite Hlookup.
        rewrite map_size_insert_None by exact Hlookup. reflexivity. }
      split; [exact Hsize |].
      assert (Hnum :
        num_args (container_emplace_back Ptr event
                    (emplace_event_arg (id_ ev) event f))
        = to_int (num_args f + 1)).
      { unfold num_args at 1. rewrite <- !Nat2Z.inj_add, Hsize.
        rewrite Nat2Z.inj_succ, <- Z.add_1_r, to_int_succ.
        unfold num_args. rewrite Nat2Z.inj_add. reflexivity. }
      split; [exact Hnum |].
      intros Hmax. rewrite Hnum. apply to_int_small.
      pose proof (to_int_range
                    (Z.of_nat (size (event_args_ f))
                     + Z.of_nat (length (formula_args_ f)))) as Hr.
      fold (num_args f) in Hr. unfold INT_MAX in Hmax. lia.
  - rewrite Hub. intros ev Hev.
    unfold AddArgument in Hub. unfold_monad. rewrite Hthis, Hev in Hub.
    destruct (negb _) in Hub; simpl in Hub; rewrite Hev in Hub;
      [discriminate |].
    rewrite lookup_insert_eq in Hub. discriminate.
Qed.

Lemma AddArgument_atomic_witness :
  exists h',
    AddArgument BasicEventPtr 6%positive (at_ 1%positive) sample_heap
    = Return tt h'
    /\ Formula_num_args 6%positive sample_heap = Return 0%Z sample_heap
    /\ Formula_num_args 6%positive h' = Return 1%Z h'.
Proof.
  pose proof (AddArgument_atomic BasicEventPtr 6%positive (at_ 1%positive)
                sample_heap (Formula_ctor "and" 0 true) eq_refl) as H.
  destruct (AddArgument BasicEventPtr 6%positive (at_ 1%positive) sample_heap)
    as [[] h' | | |] eqn:E; try (vm_compute in E; discriminate E).
  destruct H as (f' & -> & _ & _ & Hexact).
  eexists. split; [reflexivity |]. split; [reflexivity |].
  unfold Formula_num_args. unfold_monad. rewrite lookup_insert_eq.
  rewrite Hexact; reflexivity.
Defined.

(** ** Programs *)

(** What a call that returns has done to the heap. *)
Lemma alloc_run (o : Object) (h : Heap) :
  alloc o h = Return (fresh (dom h)) (<[fresh (dom h) := o]> h)
  /\ h !! fresh (dom h) = None.
Proof.
  split; [reflexivity |]. apply not_elem_of_dom, is_fresh.
Qed.

Lemma call_new_returns o (h h1 : Heap) :
  do_call (call_new o) h = Return tt h1 ->
  h !! fresh (dom h) = None /\ h1 = <[fresh (dom h) := o]> h.
Proof.
  simpl. unfold bind, ret. destruct (alloc_run o h) as [-> Hfresh].
  intros [= <-]. auto.
Qed.

Lemma Event_orphan_set_returns this state (h h1 : Heap) :
  Event_orphan_set this state h = Return tt h1 ->
  exists o e,
    h !! this = Some o /\ event_base o = Some e
    /\ h1 = <[this := set_event_base
                        {| role := role e; id_ := id_ e; name_ := name_ e;
                           orphan_ := state |} o]> h.
Proof.
  unfold Event_orphan_set. unfold_monad.
  destruct (h !! this) as [o |]; [| discriminate].
  destruct (event_base o) as [e |] eqn:Hbase; [| discriminate].
  intros [= <-]. exists o, e. auto.
Qed.

Lemma HouseEvent_state_set_returns this constant (h h1 : Heap) :
  HouseEvent_state_set this constant h = Return tt h1 ->
  exists x,
    h !! this = Some (ObjHouseEvent x)
    /\ h1 = <[this := ObjHouseEvent
                        {| house_base := set_has_expression true (house_base x);
                           state_ := constant |}]> h.
Proof.
  unfold HouseEvent_state_set, PrimaryEvent_has_expression_set. unfold_monad.
  destruct (h !! this) as [[| x | b | |] |]; try discriminate; simpl.
  - rewrite lookup_insert_eq, insert_insert_eq. intros [= <-]. eauto.
  - rewrite lookup_insert_eq. discriminate.
Qed.

Lemma Gate_formula_set_returns this formula (h h1 : Heap) :
  Gate_formula_set this formula h = Return tt h1 ->
  exists g,
    h !! this = Some (ObjGate g)
    /\ h1 = <[this := ObjGate {| gate_base := gate_base g;
                                 formula_ := formula;
                                 mark_ := mark_ g |}]> h.
Proof.
  unfold Gate_formula_set. unfold_monad.
  destruct (h !! this) as [[| | | g |] |]; try discriminate.
  destruct (formula_ g); simpl; [| discriminate].
  intros [= <-]. eauto.
Qed.

Lemma Gate_mark_set_returns this new_mark (h h1 : Heap) :
  Gate_mark_set this new_mark h = Return tt h1 ->
  exists g,
    h !! this = Some (ObjGate g)
    /\ h1 = <[this := ObjGate {| gate_base := gate_base g;
                                 formula_ := formula_ g;
                                 mark_ := new_mark |}]> h.
Proof.
  unfold Gate_mark_set. unfold_monad.
  destruct (h !! this) as [[| | | g |] |]; try discriminate.
  intros [= <-]. eauto.
Qed.

Lemma AddArgument_returns Ptr this event (h h1 : Heap) :
  AddArgument Ptr this event h = Return tt h1 ->
  exists f ev,
    h !! this = Some (ObjFormula f)
    /\ deref_event Ptr event h = Return ev h
    /\ event_args_ f !! id_ ev = None
    /\ h1 = <[this := ObjFormula
                        (container_emplace_back Ptr event
                           (emplace_event_arg (id_ ev) event f))]> h.
Proof.
  intros Hrun.
  destruct (AddArgument_cases Ptr this event h)
    as [(f & ev & Hthis & Hev) | Hub]; [| congruence].
  rewrite (AddArgument_run Ptr this event h f ev Hthis Hev) in Hrun.
  destruct (event_args_ f !! id_ ev) eqn:Hlookup; [discriminate |].
  injection Hrun as <-. exists f, ev. auto.
Qed.

(** Splits a returning call into its cases, with the heap after the call made
    explicit. *)
Ltac invert_call c Hrun :=
  destruct c as [o | l state | l constant | l e | l gate | l formula
                 | l new_mark | Ptr l event];
  [ apply call_new_returns in Hrun; destruct Hrun as [Hfresh ->]
  | simpl in Hrun | simpl in Hrun | simpl in Hrun | simpl in Hrun
  | simpl in Hrun | simpl in Hrun | simpl in Hrun ];
  [ idtac
  | apply Event_orphan_set_returns in Hrun;
    destruct Hrun as (o & e0 & Hl & Hbase & ->)
  | apply HouseEvent_state_set_returns in Hrun; destruct Hrun as (x & Hl & ->)
  | apply BasicEvent_expression_set_returns in Hrun;
    destruct Hrun as (b0 & Hl & Hnull & ->)
  | apply BasicEvent_ccf_gate_set_returns in Hrun;
    destruct Hrun as (b0 & Hl & Hnull & ->)
  | apply Gate_formula_set_returns in Hrun; destruct Hrun as (g & Hl & ->)
  | apply Gate_mark_set_returns in Hrun; destruct Hrun as (g & Hl & ->)
  | apply AddArgument_returns in Hrun;
    destruct Hrun as (f0 & ev0 & Hl & Hev0 & Hnone & ->) ].

(** Rewrites a lookup in an updated heap, whether or not the address is the
    one updated. *)
Ltac lookup_updated l this :=
  destruct (decide (l = this)) as [-> | ?];
  [ rewrite ?lookup_insert_eq | rewrite ?lookup_insert_ne by done ].

(** One call on a heap with a basic event at [this]: the event stays a basic
    event, and its CCF gate changes only by a [ccf_gate(gate)] call on it,
    made while none is assigned. *)
Lemma do_call_ccf_gate (h h1 : Heap) this b c :
  h !! this = Some (ObjBasicEvent b) ->
  do_call c h = Return tt h1 ->
  exists b1,
    h1 !! this = Some (ObjBasicEvent b1)
    /\ match c with
       | call_ccf_gate l gate =>
           if decide (l = this)
           then ccf_gate_ b = nullptr /\ ccf_gate_ b1 = gate
           else ccf_gate_ b1 = ccf_gate_ b
       | _ => ccf_gate_ b1 = ccf_gate_ b
       end.
Proof.
  intros Hthis Hrun. invert_call c Hrun.
  - exists b. rewrite lookup_insert_ne by congruence. done.
  - lookup_updated l this; [| by exists b].
    rewrite Hthis in Hl. injection Hl as <-. eexists. split; done.
  - lookup_updated l this; [congruence | by exists b].
  - lookup_updated l this; [| by exists b].
    rewrite Hthis in Hl. injection Hl as <-. eexists. split; done.
  - destruct (decide (l = this)) as [-> | Hne].
    + rewrite lookup_insert_eq. rewrite Hthis in Hl. injection Hl as <-.
      eexists. split; done.
    + rewrite lookup_insert_ne by done. by exists b.
  - lookup_updated l this; [congruence | by exists b].
  - lookup_updated l this; [congruence | by exists b].
  - lookup_updated l this; [congruence | by exists b].
Qed.

Lemma do_calls_ccf_gate this calls : forall (h h' : Heap) b,
  h !! this = Some (ObjBasicEvent b) ->
  do_calls calls h = Return tt h' ->
  exists b',
    h' !! this = Some (ObjBasicEvent b')
    /\ to_bool (ccf_gate_ b')
       = to_bool (ccf_gate_ b) || existsb (assigns_ccf_gate this) calls
    /\ (length (filter (fun c => assigns_ccf_gate this c = true) calls)
        + (if to_bool (ccf_gate_ b) then 1 else 0) <= 1)
    /\ (ccf_gate_ b' = ccf_gate_ b
        \/ call_ccf_gate this (ccf_gate_ b') ∈ calls).
Proof.
  induction calls as [| c calls IH]; intros h h' b Hthis Hrun.
  - injection Hrun as <-. exists b. rewrite orb_false_r. simpl.
    repeat split; auto. destruct (to_bool (ccf_gate_ b)); lia.
  - simpl in Hrun. unfold bind in Hrun.
    destruct (do_call c h) as [[] h1 | | |] eqn:Hc; try discriminate.
    destruct (do_call_ccf_gate h h1 this b c Hthis Hc) as (b1 & Hthis1 & Hb1).
    destruct (IH h1 h' b1 Hthis1 Hrun)
      as (b' & Hthis' & Hbool & Hcount & Hmem).
    exists b'. split; [exact Hthis' |].
    assert (Hother : ccf_gate_ b1 = ccf_gate_ b ->
                     assigns_ccf_gate this c = false ->
                     to_bool (ccf_gate_ b')
                     = to_bool (ccf_gate_ b)
                       || existsb (assigns_ccf_gate this) (c :: calls)
                     /\ length (filter (fun c => assigns_ccf_gate this c = true)
                                  (c :: calls))
                        + (if to_bool (ccf_gate_ b) then 1 else 0) <= 1
                     /\ (ccf_gate_ b' = ccf_gate_ b
                         \/ call_ccf_gate this (ccf_gate_ b') ∈ c :: calls)).
    { intros Hsame Hno. rewrite Hsame in *.
      rewrite filter_cons_False by (rewrite Hno; done).
      cbn [existsb]. rewrite Hno. simpl.
      repeat split; auto.
      destruct Hmem as [-> | Hmem];
        [by left | right; by apply list_elem_of_further]. }
    destruct c as [o | l state | l constant | l e | l gate | l formula
                   | l new_mark | Ptr l event];
      try (apply Hother; [exact Hb1 | reflexivity]).
    destruct (decide (l = this)) as [-> | Hne].
    + simpl in Hb1.
      destruct Hb1 as [Hnull Hgate]. rewrite Hnull, Hgate in *.
      assert (Hassign : assigns_ccf_gate this (call_ccf_gate this gate)
                        = to_bool gate).
      { destruct gate; simpl; [reflexivity |].
        by apply bool_decide_eq_true_2. }
      assert (Hfilter :
        length (filter (fun c => assigns_ccf_gate this c = true)
                  (call_ccf_gate this gate :: calls))
        = (if to_bool gate then 1 else 0)
          + length (filter (fun c => assigns_ccf_gate this c = true) calls)).
      { destruct gate.
        - rewrite filter_cons_False by (rewrite Hassign; done). reflexivity.
        - rewrite filter_cons_True by (rewrite Hassign; done). reflexivity. }
      cbn [existsb]. rewrite Hassign, Hfilter.
      split; [| split].
      * destruct gate; simpl in *; exact Hbool.
      * destruct gate; simpl in *; lia.
      * right. destruct Hmem as [-> | Hmem];
          [apply list_elem_of_here | by apply list_elem_of_further].
    + simpl in Hb1.
      apply Hother; [exact Hb1 |]. simpl. destruct gate; [reflexivity |].
      by apply bool_decide_eq_false_2.
Qed.

(** C10: a freshly constructed basic event has [HasCcf()] false.  After any
    program of successful calls, on this event or on any other object,
    [HasCcf()] is true if and only if one of the calls was [ccf_gate(gate)]
    on this event with an actual gate; the program has at most one such
    call, and once a gate is assigned a further [ccf_gate(gate')] fails its
    assertion.  The getter [ccf_gate()] returns the assigned gate when there
    is one and fails its assertion when there is none. *)
Theorem BasicEvent_ccf_gate_protocol (h : Heap) this name base_path is_public :
  h !! this = Some (ObjBasicEvent (BasicEvent_ctor name base_path is_public)) ->
  BasicEvent_HasCcf this h = Return false h
  /\ forall calls h',
       do_calls calls h = Return tt h' ->
       BasicEvent_HasCcf this h'
       = Return (existsb (assigns_ccf_gate this) calls) h'
       /\ length (filter (fun c => assigns_ccf_gate this c = true) calls) <= 1
       /\ (existsb (assigns_ccf_gate this) calls = true ->
           (exists gate, call_ccf_gate this (at_ gate) ∈ calls
                         /\ BasicEvent_ccf_gate this h' = Return (at_ gate) h')
           /\ forall gate', BasicEvent_ccf_gate_set this gate' h' = Abort)
       /\ (existsb (assigns_ccf_gate this) calls = false ->
           BasicEvent_ccf_gate this h' = Abort).
Proof.
  intros Hthis. split.
  - rewrite (BasicEvent_HasCcf_run h this _ Hthis). reflexivity.
  - intros calls h' Hrun.
    destruct (do_calls_ccf_gate this calls h h' _ Hthis Hrun)
      as (b' & Hthis' & Hbool & Hcount & Hmem).
    simpl in Hbool, Hcount, Hmem.
    rewrite (BasicEvent_HasCcf_run h' this b' Hthis'), Hbool.
    rewrite (BasicEvent_ccf_gate_run h' this b' Hthis'), Hbool.
    split; [reflexivity |]. split; [lia |]. split.
    + intros Hex. rewrite Hex in *. split.
      * destruct (ccf_gate_ b') as [| gate] eqn:Hg; [discriminate |].
        exists gate. split; [| reflexivity].
        destruct Hmem as [Hmem | Hmem]; [discriminate | exact Hmem].
      * intros gate'.
        rewrite (BasicEvent_ccf_gate_set_run h' this b' gate' Hthis'), Hbool.
        reflexivity.
    + intros Hex. rewrite Hex. reflexivity.
Qed.

Lemma BasicEvent_ccf_gate_protocol_witness :
  BasicEvent_HasCcf 1%positive sample_heap = Return false sample_heap
  /\ exists h',
       do_calls sample_program sample_heap = Return tt h'
       /\ BasicEvent_HasCcf 1%positive h' = Return true h'
       /\ BasicEvent_ccf_gate 1%positive h' = Return (at_ 5%positive) h'
       /\ BasicEvent_ccf_gate_set 1%positive (at_ 5%positive) h' = Abort.
Proof.
  destruct (BasicEvent_ccf_gate_protocol sample_heap 1%positive "PumpOne" ""
              true eq_refl) as [Hfresh Hcalls].
  split; [exact Hfresh |].
  eexists. split; [reflexivity |].
  destruct (Hcalls sample_program _ eq_refl) as (Hhas & _ & Hassigned & _).
  split; [exact Hhas |].
  destruct (Hassigned eq_refl) as [_ Hset].
  split; [reflexivity | apply Hset].
Defined.

(** The id read through an event pointer is a function of the object the
    pointer designates. *)
Lemma id_at_lookup (h : Heap) Ptr l :
  id_at h (Ptr, at_ l)
  = match Ptr, h !! l with
    | HouseEventPtr, Some (ObjHouseEvent x) =>
        Some (id_ (primary_base (house_base x)))
    | BasicEventPtr, Some (ObjBasicEvent x) =>
        Some (id_ (primary_base (basic_base x)))
    | GatePtr, Some (ObjGate g) => Some (id_ (gate_base g))
    | _, _ => None
    end.
Proof.
  unfold id_at, deref_event. simpl.
  destruct Ptr, (h !! l) as [[] |]; reflexivity.
Qed.

Lemma id_at_deref (h : Heap) Ptr event ev :
  deref_event Ptr event h = Return ev h -> id_at h (Ptr, event) = Some (id_ ev).
Proof. intros Hev. unfold id_at. simpl. by rewrite Hev. Qed.

(** No call changes the id of an event: ids are set at construction. *)
Lemma do_call_id_at c (h h1 : Heap) arg i :
  do_call c h = Return tt h1 ->
  id_at h arg = Some i -> id_at h1 arg = Some i.
Proof.
  intros Hrun. destruct arg as [Ptr' [| l']]; [discriminate |].
  rewrite !id_at_lookup.
  invert_call c Hrun.
  all: try (destruct (decide (l' = l)) as [-> | Hne];
            [rewrite lookup_insert_eq, Hl
            | by rewrite lookup_insert_ne by done]).
  - destruct (decide (l' = fresh (dom h))) as [-> | Hne].
    + rewrite Hfresh. by destruct Ptr'.
    + by rewrite lookup_insert_ne by done.
  - destruct o; simpl in Hbase; try discriminate;
      injection Hbase as <-; by destruct Ptr'.
  - by destruct Ptr'.
  - by destruct Ptr'.
  - by destruct Ptr'.
  - by destruct Ptr'.
  - by destruct Ptr'.
  - by destruct Ptr'.
Qed.

Lemma do_calls_id_at calls : forall (h h' : Heap) arg i,
  do_calls calls h = Return tt h' ->
  id_at h arg = Some i -> id_at h' arg = Some i.
Proof.
  induction calls as [| c calls IH]; intros h h' arg i Hrun Hid.
  - by injection Hrun as <-.
  - simpl in Hrun. unfold bind in Hrun.
    destruct (do_call c h) as [[] h1 | | |] eqn:Hc; try discriminate.
    eauto using do_call_id_at.
Qed.

(** One call on a heap with a formula at [this]: the formula stays a
    formula, and its event map gains a key only by an [AddArgument] on it,
    the key being the id of the event added. *)
Lemma do_call_event_args (h h1 : Heap) this f c :
  h !! this = Some (ObjFormula f) ->
  do_call c h = Return tt h1 ->
  exists f1,
    h1 !! this = Some (ObjFormula f1)
    /\ forall id,
         is_Some (event_args_ f1 !! id)
         <-> is_Some (event_args_ f !! id)
             \/ exists arg, added_to this c = Some arg /\ id_at h arg = Some id.
Proof.
  intros Hthis Hrun.
  assert (Hsame : forall id,
            is_Some (event_args_ f !! id)
            <-> is_Some (event_args_ f !! id)
                \/ exists arg : PtrClass * pointer,
                     None = Some arg /\ id_at h arg = Some id).
  { intros id. split; [tauto |]. intros [H | (arg & [=] & _)]; exact H. }
  invert_call c Hrun.
  - exists f. rewrite lookup_insert_ne by congruence. done.
  - lookup_updated l this; [| by exists f].
    rewrite Hthis in Hl. injection Hl as <-. discriminate Hbase.
  - lookup_updated l this; [congruence | by exists f].
  - lookup_updated l this; [congruence | by exists f].
  - lookup_updated l this; [congruence | by exists f].
  - lookup_updated l this; [congruence | by exists f].
  - lookup_updated l this; [congruence | by exists f].
  - simpl. destruct (decide (l = this)) as [-> | Hne].
    + rewrite lookup_insert_eq. rewrite Hthis in Hl. injection Hl as <-.
      eexists. split; [reflexivity |].
      intros id. cbn [event_args_ container_emplace_back emplace_event_arg].
      unfold map_emplace. rewrite Hnone.
      pose proof (id_at_deref h Ptr event ev0 Hev0) as Hid.
      destruct (decide (id = id_ ev0)) as [-> | Hid'].
      * rewrite lookup_insert_eq. split; [intros _ | eauto].
        right. eauto.
      * rewrite lookup_insert_ne by done. split; [tauto |].
        intros [H | (arg & [= <-] & Harg)]; [exact H | congruence].
    + rewrite lookup_insert_ne by done. by exists f.
Qed.

(** After a program, the keys of the event map of a formula are the keys it
    had, together with the ids of the events the program added to it. *)
Lemma do_calls_event_args this calls : forall (h h' : Heap) f,
  h !! this = Some (ObjFormula f) ->
  do_calls calls h = Return tt h' ->
  exists f',
    h' !! this = Some (ObjFormula f')
    /\ forall id,
         is_Some (event_args_ f' !! id)
         <-> is_Some (event_args_ f !! id)
             \/ Some id ∈ id_at h' <$> omap (added_to this) calls.
Proof.
  induction calls as [| c calls IH]; intros h h' f Hthis Hrun.
  - injection Hrun as <-. exists f. split; [exact Hthis |].
    intros id. simpl. rewrite elem_of_nil. tauto.
  - simpl in Hrun. unfold bind in Hrun.
    destruct (do_call c h) as [[] h1 | | |] eqn:Hc; try discriminate.
    destruct (do_call_event_args h h1 this f c Hthis Hc)
      as (f1 & Hthis1 & Hkeys1).
    destruct (IH h1 h' f1 Hthis1 Hrun) as (f' & Hthis' & Hkeys').
    exists f'. split; [exact Hthis' |].
    intros id. rewrite Hkeys', Hkeys1.
    change (omap (added_to this) (c :: calls))
      with (match added_to this c with
            | Some arg => arg :: omap (added_to this) calls
            | None => omap (added_to this) calls
            end).
    destruct (added_to this c) as [arg |] eqn:Hadded.
    + rewrite fmap_cons, elem_of_cons.
      assert (exists i, id_at h arg = Some i) as [i Hi].
      { destruct c as [| | | | | | | Ptr0 l0 event0]; try discriminate.
        simpl in Hadded.
        destruct (decide (l0 = this)) as [-> |]; [| discriminate].
        injection Hadded as <-.
        apply AddArgument_returns in Hc.
        destruct Hc as (f0 & ev & _ & Hev & _). eauto using id_at_deref. }
      pose proof (do_call_id_at c h h1 arg i Hc Hi) as Hi1.
      pose proof (do_calls_id_at calls h1 h' arg i Hrun Hi1) as Hi'.
      rewrite Hi'. split.
      * intros [[H | (arg' & [= <-] & Harg')] | H]; [tauto | | tauto].
        right; left. congruence.
      * intros [H | [[= ->] | H]]; [tauto | | tauto].
        left; right. eauto.
    + split; [| tauto].
      intros [[H | (arg' & [=] & _)] | H]; tauto.
Qed.

(** C2: for a formula [f] and any program run after it, adding an event
    (house, basic or gate) whose id is the id of an event the program added
    to the formula, or of an event [f] already held, throws
    DuplicateArgumentError; adding an event whose id is not among these
    returns. *)
Theorem AddArgument_duplicate (h h' : Heap) this f calls Ptr event ev :
  h !! this = Some (ObjFormula f) ->
  do_calls calls h = Return tt h' ->
  deref_event Ptr event h' = Return ev h' ->
  (Some (id_ ev) ∈ id_at h' <$> omap (added_to this) calls
   \/ is_Some (event_args_ f !! id_ ev) ->
   AddArgument Ptr this event h'
   = Throw (mkException DuplicateArgumentError
              ("Duplicate argument " +:+ name_ ev)) h')
  /\ (Some (id_ ev) ∉ id_at h' <$> omap (added_to this) calls ->
      event_args_ f !! id_ ev = None ->
      exists h'', AddArgument Ptr this event h' = Return tt h'').
Proof.
  intros Hthis Hrun Hev.
  destruct (do_calls_event_args this calls h h' f Hthis Hrun)
    as (f' & Hthis' & Hkeys).
  rewrite (AddArgument_run Ptr this event h' f' ev Hthis' Hev).
  specialize (Hkeys (id_ ev)).
  split.
  - intros Hin.
    destruct (event_args_ f' !! id_ ev) as [p |] eqn:Hlookup; [reflexivity |].
    exfalso. destruct Hkeys as [_ Hk].
    destruct Hk as [p Hp]; [tauto | discriminate].
  - intros Hnotin Hnone.
    destruct (event_args_ f' !! id_ ev) as [p |] eqn:Hlookup; [| eauto].
    exfalso. destruct Hkeys as [Hk _].
    destruct Hk as [[p' Hp'] | Hk]; [eauto | congruence | done].
Qed.

Lemma AddArgument_duplicate_witness :
  exists h',
    do_calls
      [call_AddArgument BasicEventPtr 6%positive (at_ 1%positive);
       call_orphan 1%positive true;
       call_AddArgument HouseEventPtr 6%positive (at_ 4%positive)]
      sample_heap = Return tt h'
    /\ AddArgument BasicEventPtr 6%positive (at_ 7%positive) h'
       = Throw (mkException DuplicateArgumentError
                  "Duplicate argument pumpone") h'
    /\ exists h'', AddArgument GatePtr 6%positive (at_ 5%positive) h'
                   = Return tt h''.
Proof.
  eexists. split; [reflexivity |]. split.
  - eapply (AddArgument_duplicate sample_heap _ 6%positive
              (Formula_ctor "and" 0 true)
              [call_AddArgument BasicEventPtr 6%positive (at_ 1%positive);
               call_orphan 1%positive true;
               call_AddArgument HouseEventPtr 6%positive (at_ 4%positive)]
              BasicEventPtr (at_ 7%positive)
              (Event_ctor "pumpone" "" true)); try reflexivity.
    left. vm_compute. apply list_elem_of_here.
  - eapply (AddArgument_duplicate sample_heap _ 6%positive
              (Formula_ctor "and" 0 true)
              [call_AddArgument BasicEventPtr 6%positive (at_ 1%positive);
               call_orphan 1%positive true;
               call_AddArgument HouseEventPtr 6%positive (at_ 4%positive)]
              GatePtr (at_ 5%positive)
              (Event_ctor "TopGate" "" true)); try reflexivity.
    vm_compute. intros H.
    repeat (apply elem_of_cons in H; destruct H as [[=] | H]).
    by apply elem_of_nil in H.
Defined.

(** C3: for a formula whose type names an operator, [Validate()] throws
    ValidationError if and only if the number of arguments, with the vote
    number for ATLEAST, violates the arity rule of the operator, and returns
    otherwise; the heap is left as it was. *)
Theorem Formula_Validate_arity (h : Heap) this f op :
  h !! this = Some (ObjFormula f) ->
  operator_of_type (type_ f) = Some op ->
  ((exists msg, Formula_Validate this h
                = Throw (mkException ValidationError msg) h)
   <-> ~ arity_rule op (num_args f) (vote_number_ f))
  /\ (Formula_Validate this h = Return tt h
      <-> arity_rule op (num_args f) (vote_number_ f)).
Proof.
  intros Hthis Hop. unfold Formula_Validate. unfold_monad.
  rewrite Hthis, Hop.
  destruct op; simpl;
    repeat match goal with
           | |- context [(?a <? ?b)%Z] => destruct (Z.ltb_spec a b); simpl
           | |- context [(?a <=? ?b)%Z] => destruct (Z.leb_spec a b); simpl
           | |- context [(?a =? ?b)%Z] => destruct (Z.eqb_spec a b); simpl
           end;
    (split; split;
     [ intros [msg Hrun]; first [discriminate Hrun | lia]
     | intros Hrule; first [eexists; reflexivity | exfalso; lia]
     | intros Hrun; first [discriminate Hrun | lia]
     | intros Hrule; first [reflexivity | exfalso; lia] ]).
Qed.

Lemma Formula_Validate_arity_witness :
  (exists msg, Formula_Validate 6%positive sample_heap
               = Throw (mkException ValidationError msg) sample_heap)
  /\ Formula_Validate 6%positive sample_heap <> Return tt sample_heap.
Proof.
  destruct (Formula_Validate_arity sample_heap 6%positive
              (Formula_ctor "and" 0 true) kAnd eq_refl eq_refl)
    as [Hthrow Hret].
  split.
  - apply Hthrow. vm_compute. intros H. apply H. reflexivity.
  - intros H. apply Hret in H. vm_compute in H. apply H. reflexivity.
Defined.

(** * Further properties of the member functions *)

(** ** Events under programs *)

(** One call leaves the [Event] part of every event as it was, but for the
    orphan flag, which [orphan(state)] on that event sets. *)
Lemma do_call_event (h h1 : Heap) this obj evt c :
  h !! this = Some obj ->
  event_base obj = Some evt ->
  do_call c h = Return tt h1 ->
  exists obj1 evt1,
    h1 !! this = Some obj1 /\ event_base obj1 = Some evt1
    /\ role evt1 = role evt /\ id_ evt1 = id_ evt /\ name_ evt1 = name_ evt
    /\ orphan_ evt1 = orphan_after this c (orphan_ evt).
Proof.
  intros Hthis Hevt Hrun. invert_call c Hrun; simpl orphan_after.
  - exists obj, evt. rewrite lookup_insert_ne by congruence. repeat split; auto.
  - destruct (decide (l = this)) as [-> | Hne].
    + rewrite lookup_insert_eq. rewrite Hthis in Hl. injection Hl as <-.
      rewrite Hevt in Hbase. injection Hbase as <-.
      destruct obj; simpl in Hevt; try discriminate;
        injection Hevt as <-; eexists _, _;
        (split; [reflexivity |]); simpl; repeat split; reflexivity.
    + rewrite lookup_insert_ne by done. exists obj, evt. repeat split; auto.
  - lookup_updated l this; [| exists obj, evt; repeat split; auto].
    rewrite Hthis in Hl. injection Hl as ->. simpl in Hevt.
    injection Hevt as <-. eexists _, _. split; [reflexivity |]. simpl.
    repeat split; auto.
  - lookup_updated l this; [| exists obj, evt; repeat split; auto].
    rewrite Hthis in Hl. injection Hl as ->. simpl in Hevt.
    injection Hevt as <-. eexists _, _. split; [reflexivity |]. simpl.
    repeat split; auto.
  - lookup_updated l this; [| exists obj, evt; repeat split; auto].
    rewrite Hthis in Hl. injection Hl as ->. simpl in Hevt.
    injection Hevt as <-. eexists _, _. split; [reflexivity |]. simpl.
    repeat split; auto.
  - lookup_updated l this; [| exists obj, evt; repeat split; auto].
    rewrite Hthis in Hl. injection Hl as ->. simpl in Hevt.
    injection Hevt as <-. eexists _, _. split; [reflexivity |]. simpl.
    repeat split; auto.
  - lookup_updated l this; [| exists obj, evt; repeat split; auto].
    rewrite Hthis in Hl. injection Hl as ->. simpl in Hevt.
    injection Hevt as <-. eexists _, _. split; [reflexivity |]. simpl.
    repeat split; auto.
  - lookup_updated l this; [| exists obj, evt; repeat split; auto].
    rewrite Hthis in Hl. injection Hl as ->. discriminate Hevt.
Qed.

(** X1: whatever program runs, an event (house event, basic event or gate)
    keeps the id and the name it was constructed with, and [orphan()]
    returns the argument of the last [orphan(state)] call on it, or what it
    returned before the program when there was none. *)
Theorem Event_fields_after_program calls : forall (h h' : Heap) this obj evt,
  h !! this = Some obj ->
  event_base obj = Some evt ->
  do_calls calls h = Return tt h' ->
  Event_id this h' = Return (id_ evt) h'
  /\ Event_name this h' = Return (name_ evt) h'
  /\ Event_orphan this h'
     = Return (fold_left (fun s c => orphan_after this c s) calls
                 (orphan_ evt)) h'.
Proof.
  induction calls as [| c calls IH]; intros h h' this obj evt Hthis Hevt Hrun.
  - injection Hrun as <-. unfold Event_id, Event_name, Event_orphan.
    unfold_monad. rewrite Hthis, Hevt. repeat split; auto.
  - simpl in Hrun. unfold bind in Hrun.
    destruct (do_call c h) as [[] h1 | | |] eqn:Hc; try discriminate.
    destruct (do_call_event h h1 this obj evt c Hthis Hevt Hc)
      as (obj1 & evt1 & Hthis1 & Hevt1 & _ & Hid & Hname & Horphan).
    destruct (IH h1 h' this obj1 evt1 Hthis1 Hevt1 Hrun)
      as (IHid & IHname & IHo).
    rewrite Hid in IHid. rewrite Hname in IHname. rewrite Horphan in IHo.
    auto.
Qed.

Lemma Event_fields_after_program_witness :
  exists h',
    do_calls second_program second_heap = Return tt h'
    /\ Event_id 1%positive h' = Return "sensor" h'
    /\ Event_name 1%positive h' = Return "Sensor" h'
    /\ Event_orphan 1%positive h' = Return true h'
    /\ Event_orphan 3%positive h' = Return false h'.
Proof.
  eexists. split; [reflexivity |].
  destruct (Event_fields_after_program second_program second_heap _
              1%positive _ _ eq_refl eq_refl eq_refl) as (Hid & Hname & Ho).
  destruct (Event_fields_after_program second_program second_heap _
              3%positive _ _ eq_refl eq_refl eq_refl) as (_ & _ & Ho3).
  split; [exact Hid |]. split; [exact Hname |]. split; [exact Ho | exact Ho3].
Defined.

(** ** House events under programs *)

Lemma do_call_house (h h1 : Heap) this hev c :
  h !! this = Some (ObjHouseEvent hev) ->
  do_call c h = Return tt h1 ->
  exists hev1,
    h1 !! this = Some (ObjHouseEvent hev1)
    /\ state_ hev1 = state_after this c (state_ hev)
    /\ has_expression_ (house_base hev1)
       = has_expression_ (house_base hev) || is_state_call this c.
Proof.
  intros Hthis Hrun.
  assert (Hsame : forall c', state_after this c' (state_ hev) = state_ hev ->
                             is_state_call this c' = false ->
                             exists hev1,
                               Some (ObjHouseEvent hev)
                               = Some (ObjHouseEvent hev1)
                               /\ state_ hev1
                                  = state_after this c' (state_ hev)
                               /\ has_expression_ (house_base hev1)
                                  = has_expression_ (house_base hev)
                                    || is_state_call this c').
  { intros c' -> ->. exists hev. rewrite orb_false_r. auto. }
  invert_call c Hrun.
  - rewrite lookup_insert_ne by congruence. rewrite Hthis. by apply Hsame.
  - destruct (decide (l = this)) as [-> | Hne].
    + rewrite lookup_insert_eq. rewrite Hthis in Hl. injection Hl as <-.
      simpl in Hbase. injection Hbase as <-.
      eexists. split; [reflexivity |]. simpl. rewrite orb_false_r. auto.
    + rewrite lookup_insert_ne by done. rewrite Hthis. by apply Hsame.
  - simpl. destruct (decide (l = this)) as [-> | Hne].
    + rewrite lookup_insert_eq. rewrite Hthis in Hl. injection Hl as <-.
      eexists. split; [reflexivity |]. simpl.
      rewrite bool_decide_eq_true_2 by done. rewrite orb_true_r. auto.
    + rewrite lookup_insert_ne by done.
      exists hev. rewrite bool_decide_eq_false_2 by done.
      rewrite orb_false_r. auto.
  - lookup_updated l this; [congruence |]. rewrite Hthis. by apply Hsame.
  - lookup_updated l this; [congruence |]. rewrite Hthis. by apply Hsame.
  - lookup_updated l this; [congruence |]. rewrite Hthis. by apply Hsame.
  - lookup_updated l this; [congruence |]. rewrite Hthis. by apply Hsame.
  - lookup_updated l this; [congruence |]. rewrite Hthis. by apply Hsame.
Qed.

(** X2: after any program, [state()] of a house event returns the argument
    of the last [state(constant)] call on it, or its previous state when
    there was none, and [has_expression()] is true exactly when it was true
    before or the program has such a call.  Unlike the expression of a basic
    event, the state can be set any number of times. *)
Theorem HouseEvent_state_after_program calls :
  forall (h h' : Heap) this hev,
    h !! this = Some (ObjHouseEvent hev) ->
    do_calls calls h = Return tt h' ->
    HouseEvent_state this h'
    = Return (fold_left (fun s c => state_after this c s) calls (state_ hev)) h'
    /\ PrimaryEvent_has_expression this h'
       = Return (has_expression_ (house_base hev)
                 || existsb (is_state_call this) calls) h'.
Proof.
  induction calls as [| c calls IH]; intros h h' this hev Hthis Hrun.
  - injection Hrun as <-.
    unfold HouseEvent_state, PrimaryEvent_has_expression. unfold_monad.
    rewrite Hthis. simpl. rewrite orb_false_r. auto.
  - simpl in Hrun. unfold bind in Hrun.
    destruct (do_call c h) as [[] h1 | | |] eqn:Hc; try discriminate.
    destruct (do_call_house h h1 this hev c Hthis Hc)
      as (hev1 & Hthis1 & Hstate & Hflag).
    destruct (IH h1 h' this hev1 Hthis1 Hrun) as [IHs IHf].
    rewrite Hstate in IHs. rewrite Hflag in IHf.
    simpl. rewrite orb_assoc. auto.
Qed.

Lemma HouseEvent_state_after_program_witness :
  exists h',
    do_calls second_program second_heap = Return tt h'
    /\ HouseEvent_state 4%positive h' = Return false h'
    /\ PrimaryEvent_has_expression 4%positive h' = Return true h'.
Proof.
  eexists. split; [reflexivity |].
  exact (HouseEvent_state_after_program second_program second_heap _
           4%positive _ eq_refl eq_refl).
Defined.

(** ** Gates under programs *)

Lemma Gate_formula_set_run (h : Heap) this gt formula :
  h !! this = Some (ObjGate gt) ->
  Gate_formula_set this formula h
  = if to_bool (formula_ gt) then Abort
    else Return tt
           (<[this := ObjGate {| gate_base := gate_base gt;
                                 formula_ := formula;
                                 mark_ := mark_ gt |}]> h).
Proof.
  intros Hthis. unfold Gate_formula_set. unfold_monad. rewrite Hthis.
  destruct (to_bool (formula_ gt)); reflexivity.
Qed.

Lemma do_call_gate (h h1 : Heap) this gt c :
  h !! this = Some (ObjGate gt) ->
  do_call c h = Return tt h1 ->
  exists gt1,
    h1 !! this = Some (ObjGate gt1)
    /\ mark_ gt1 = mark_after this c (mark_ gt)
    /\ match c with
       | call_formula l formula =>
           if decide (l = this)
           then formula_ gt = nullptr /\ formula_ gt1 = formula
           else formula_ gt1 = formula_ gt
       | _ => formula_ gt1 = formula_ gt
       end.
Proof.
  intros Hthis Hrun.
  assert (Hunset : forall l formula,
            c = call_formula l formula -> l = this -> formula_ gt = nullptr).
  { intros l formula -> ->. simpl in Hrun.
    rewrite (Gate_formula_set_run h this gt formula Hthis) in Hrun.
    by destruct (formula_ gt). }
  invert_call c Hrun; simpl mark_after.
  - rewrite lookup_insert_ne by congruence. by exists gt.
  - destruct (decide (l = this)) as [-> | Hne].
    + rewrite lookup_insert_eq. rewrite Hthis in Hl. injection Hl as <-.
      eexists. split; [reflexivity |]. simpl. auto.
    + rewrite lookup_insert_ne by done. by exists gt.
  - lookup_updated l this; [congruence | by exists gt].
  - lookup_updated l this; [congruence | by exists gt].
  - lookup_updated l this; [congruence | by exists gt].
  - destruct (decide (l = this)) as [-> | Hne].
    + rewrite lookup_insert_eq. rewrite Hthis in Hl. injection Hl as <-.
      eexists. split; [reflexivity |]. simpl. eauto.
    + rewrite lookup_insert_ne by done. by exists gt.
  - destruct (decide (l = this)) as [-> | Hne].
    + rewrite lookup_insert_eq. rewrite Hthis in Hl. injection Hl as <-.
      eexists. split; [reflexivity |]. simpl. auto.
    + rewrite lookup_insert_ne by done. by exists gt.
  - lookup_updated l this; [congruence | by exists gt].
Qed.

Lemma Gate_observers_run (h : Heap) this gt :
  h !! this = Some (ObjGate gt) ->
  Gate_formula this h = Return (formula_ gt) h
  /\ Gate_connector this h = Return (formula_ gt) h
  /\ Gate_mark this h = Return (mark_ gt) h.
Proof.
  intros Hthis. unfold Gate_formula, Gate_connector, Gate_mark. unfold_monad.
  rewrite Hthis. auto.
Qed.

Lemma do_calls_gate this calls : forall (h h' : Heap) gt,
  h !! this = Some (ObjGate gt) ->
  do_calls calls h = Return tt h' ->
  exists gt',
    h' !! this = Some (ObjGate gt')
    /\ mark_ gt' = fold_left (fun m c => mark_after this c m) calls (mark_ gt)
    /\ to_bool (formula_ gt')
       = to_bool (formula_ gt) || existsb (assigns_formula this) calls
    /\ (length (filter (fun c => assigns_formula this c = true) calls)
        + (if to_bool (formula_ gt) then 1 else 0) <= 1)
    /\ (formula_ gt' = formula_ gt
        \/ call_formula this (formula_ gt') ∈ calls).
Proof.
  induction calls as [| c calls IH]; intros h h' gt Hthis Hrun.
  - injection Hrun as <-. exists gt. rewrite orb_false_r. simpl.
    repeat split; auto. destruct (to_bool (formula_ gt)); lia.
  - simpl in Hrun. unfold bind in Hrun.
    destruct (do_call c h) as [[] h1 | | |] eqn:Hc; try discriminate.
    destruct (do_call_gate h h1 this gt c Hthis Hc)
      as (gt1 & Hthis1 & Hmark & Hform).
    destruct (IH h1 h' gt1 Hthis1 Hrun)
      as (gt' & Hthis' & Hmark' & Hbool & Hcount & Hmem).
    exists gt'. split; [exact Hthis' |].
    split; [simpl; by rewrite <- Hmark |].
    assert (Hother : formula_ gt1 = formula_ gt ->
                     assigns_formula this c = false ->
                     to_bool (formula_ gt')
                     = to_bool (formula_ gt)
                       || existsb (assigns_formula this) (c :: calls)
                     /\ length (filter (fun c => assigns_formula this c = true)
                                  (c :: calls))
                        + (if to_bool (formula_ gt) then 1 else 0) <= 1
                     /\ (formula_ gt' = formula_ gt
                         \/ call_formula this (formula_ gt') ∈ c :: calls)).
    { intros Hsame Hno. rewrite Hsame in *.
      rewrite filter_cons_False by (rewrite Hno; done).
      cbn [existsb]. rewrite Hno. simpl.
      repeat split; auto.
      destruct Hmem as [-> | Hmem];
        [by left | right; by apply list_elem_of_further]. }
    destruct c as [o | l state | l constant | l e | l gate | l formula
                   | l new_mark | Ptr l event];
      try (apply Hother; [exact Hform | reflexivity]).
    destruct (decide (l = this)) as [-> | Hne].
    + simpl in Hform. destruct Hform as [Hnull Hset].
      rewrite Hnull, Hset in *.
      assert (Hassign : assigns_formula this (call_formula this formula)
                        = to_bool formula).
      { destruct formula; simpl; [reflexivity |].
        by apply bool_decide_eq_true_2. }
      assert (Hfilter :
        length (filter (fun c => assigns_formula this c = true)
                  (call_formula this formula :: calls))
        = (if to_bool formula then 1 else 0)
          + length (filter (fun c => assigns_formula this c = true) calls)).
      { destruct formula.
        - rewrite filter_cons_False by (rewrite Hassign; done). reflexivity.
        - rewrite filter_cons_True by (rewrite Hassign; done). reflexivity. }
      cbn [existsb]. rewrite Hassign, Hfilter.
      split; [| split].
      * destruct formula; simpl in *; exact Hbool.
      * destruct formula; simpl in *; lia.
      * right. destruct Hmem as [-> | Hmem];
          [apply list_elem_of_here | by apply list_elem_of_further].
    + simpl in Hform.
      apply Hother; [exact Hform |]. simpl. destruct formula; [reflexivity |].
      by apply bool_decide_eq_false_2.
Qed.

(** X3: a freshly constructed gate has no formula.  After any program,
    [formula()] and [connector()] return the same pointer, which is non-null
    if and only if the program called [formula(f)] on the gate with an
    actual formula; that call is then the only one of its kind, its argument
    is the pointer returned, and a further [formula(f')] on the gate fails
    its assertion. *)
Theorem Gate_formula_protocol (h : Heap) this name base_path is_public :
  h !! this = Some (ObjGate (Gate_ctor name base_path is_public)) ->
  Gate_formula this h = Return nullptr h
  /\ forall calls h',
       do_calls calls h = Return tt h' ->
       exists p,
         Gate_formula this h' = Return p h'
         /\ Gate_connector this h' = Return p h'
         /\ to_bool p = existsb (assigns_formula this) calls
         /\ length (filter (fun c => assigns_formula this c = true) calls) <= 1
         /\ (to_bool p = true ->
             call_formula this p ∈ calls
             /\ forall f', Gate_formula_set this f' h' = Abort).
Proof.
  intros Hthis. split.
  - by destruct (Gate_observers_run h this _ Hthis) as [-> _].
  - intros calls h' Hrun.
    destruct (do_calls_gate this calls h h' _ Hthis Hrun)
      as (gt' & Hthis' & _ & Hbool & Hcount & Hmem).
    simpl in Hbool, Hcount, Hmem.
    destruct (Gate_observers_run h' this gt' Hthis') as (Hf & Hc & _).
    exists (formula_ gt'). split; [exact Hf |]. split; [exact Hc |].
    split; [exact Hbool |]. split; [lia |].
    intros Hset. split.
    + destruct Hmem as [Hmem | Hmem]; [| exact Hmem].
      rewrite Hmem in Hset. discriminate Hset.
    + intros f'. rewrite (Gate_formula_set_run h' this gt' f' Hthis'), Hset.
      reflexivity.
Qed.

Lemma Gate_formula_protocol_witness :
  Gate_formula 3%positive second_heap = Return nullptr second_heap
  /\ exists h',
       do_calls second_program second_heap = Return tt h'
       /\ Gate_formula 3%positive h' = Return (at_ 5%positive) h'
       /\ Gate_connector 3%positive h' = Return (at_ 5%positive) h'
       /\ Gate_formula_set 3%positive (at_ 8%positive) h' = Abort.
Proof.
  destruct (Gate_formula_protocol second_heap 3%positive "Top" "" true eq_refl)
    as [Hfresh Hcalls].
  split; [exact Hfresh |].
  eexists. split; [reflexivity |].
  destruct (Hcalls second_program _ eq_refl)
    as (p & Hf & Hc & Hbool & _ & Hassigned).
  destruct (Hassigned Hbool) as [_ Hset].
  split; [reflexivity |]. split; [reflexivity | apply Hset].
Defined.

(** X4: after any program, [mark()] of a gate returns the argument of the
    last [mark(new_mark)] call on it, or its previous mark when there was
    none; marking can be repeated and never touches the formula of the
    gate. *)
Theorem Gate_mark_after_program calls (h h' : Heap) this gt :
  h !! this = Some (ObjGate gt) ->
  do_calls calls h = Return tt h' ->
  Gate_mark this h'
  = Return (fold_left (fun m c => mark_after this c m) calls (mark_ gt)) h'
  /\ (existsb (assigns_formula this) calls = false ->
      Gate_formula this h' = Return (formula_ gt) h').
Proof.
  intros Hthis Hrun.
  destruct (do_calls_gate this calls h h' gt Hthis Hrun)
    as (gt' & Hthis' & Hmark & Hbool & _ & Hmem).
  destruct (Gate_observers_run h' this gt' Hthis') as (Hf & _ & Hm).
  rewrite Hm, Hf, Hmark. split; [reflexivity |].
  intros Hno. destruct Hmem as [-> | Hmem]; [reflexivity |].
  rewrite Hno, orb_false_r in Hbool.
  destruct (formula_ gt') as [| f'] eqn:Hf'.
  - destruct (formula_ gt); [reflexivity | discriminate Hbool].
  - exfalso.
    assert (Hex : existsb (assigns_formula this) calls = true).
    { apply existsb_exists. exists (call_formula this (at_ f')).
      split; [by apply list_elem_of_In |].
      simpl. by apply bool_decide_eq_true_2. }
    congruence.
Qed.

Lemma Gate_mark_after_program_witness :
  exists h',
    do_calls second_program second_heap = Return tt h'
    /\ Gate_mark 3%positive h' = Return "perm" h'
    /\ Gate_mark 7%positive h' = Return "" h'
    /\ Gate_formula 7%positive h' = Return nullptr h'.
Proof.
  eexists. split; [reflexivity |].
  destruct (Gate_mark_after_program second_program second_heap _ 3%positive _
              eq_refl eq_refl) as [Hm3 _].
  destruct (Gate_mark_after_program second_program second_heap _ 7%positive _
              eq_refl eq_refl) as [Hm7 Hf7].
  split; [exact Hm3 |]. split; [exact Hm7 | exact (Hf7 eq_refl)].
Defined.

(** ** Basic events under programs *)

(** No call changes an expression object. *)
Lemma do_call_expression_object (h h1 : Heap) ptr ex c :
  h !! ptr = Some (ObjExpression ex) ->
  do_call c h = Return tt h1 ->
  h1 !! ptr = Some (ObjExpression ex).
Proof.
  intros Hptr Hrun. invert_call c Hrun.
  - by rewrite lookup_insert_ne by congruence.
  - lookup_updated l ptr; [| done].
    rewrite Hptr in Hl. injection Hl as <-. discriminate Hbase.
  - lookup_updated l ptr; [congruence | done].
  - lookup_updated l ptr; [congruence | done].
  - lookup_updated l ptr; [congruence | done].
  - lookup_updated l ptr; [congruence | done].
  - lookup_updated l ptr; [congruence | done].
  - lookup_updated l ptr; [congruence | done].
Qed.

Lemma do_calls_expression_object calls : forall (h h' : Heap) ptr ex,
  h !! ptr = Some (ObjExpression ex) ->
  do_calls calls h = Return tt h' ->
  h' !! ptr = Some (ObjExpression ex).
Proof.
  induction calls as [| c calls IH]; intros h h' ptr ex Hptr Hrun.
  - by injection Hrun as <-.
  - simpl in Hrun. unfold bind in Hrun.
    destruct (do_call c h) as [[] h1 | | |] eqn:Hc; try discriminate.
    eauto using do_call_expression_object.
Qed.

Lemma do_call_basic (h h1 : Heap) this bev c :
  h !! this = Some (ObjBasicEvent bev) ->
  do_call c h = Return tt h1 ->
  exists bev1,
    h1 !! this = Some (ObjBasicEvent bev1)
    /\ has_expression_ (basic_base bev1)
       = has_expression_ (basic_base bev) || is_expression_call this c
    /\ match c with
       | call_expression l expression =>
           if decide (l = this)
           then expression_ bev = nullptr /\ expression_ bev1 = expression
           else expression_ bev1 = expression_ bev
       | _ => expression_ bev1 = expression_ bev
       end.
Proof.
  intros Hthis Hrun. invert_call c Hrun; simpl is_expression_call.
  - exists bev. rewrite lookup_insert_ne by congruence.
    by rewrite orb_false_r.
  - destruct (decide (l = this)) as [-> | Hne].
    + rewrite lookup_insert_eq. rewrite Hthis in Hl. injection Hl as <-.
      eexists. split; [reflexivity |]. simpl. by rewrite orb_false_r.
    + rewrite lookup_insert_ne by done. exists bev. by rewrite orb_false_r.
  - lookup_updated l this; [congruence |]. exists bev. by rewrite orb_false_r.
  - destruct (decide (l = this)) as [-> | Hne].
    + rewrite lookup_insert_eq. rewrite Hthis in Hl. injection Hl as <-.
      eexists. split; [reflexivity |]. simpl.
      rewrite bool_decide_eq_true_2 by done. by rewrite orb_true_r.
    + rewrite lookup_insert_ne by done. exists bev.
      rewrite bool_decide_eq_false_2 by done. by rewrite orb_false_r.
  - destruct (decide (l = this)) as [-> | Hne].
    + rewrite lookup_insert_eq. rewrite Hthis in Hl. injection Hl as <-.
      eexists. split; [reflexivity |]. simpl. by rewrite orb_false_r.
    + rewrite lookup_insert_ne by done. exists bev. by rewrite orb_false_r.
  - lookup_updated l this; [congruence |]. exists bev. by rewrite orb_false_r.
  - lookup_updated l this; [congruence |]. exists bev. by rewrite orb_false_r.
  - lookup_updated l this; [congruence |]. exists bev. by rewrite orb_false_r.
Qed.

Lemma do_calls_basic this calls : forall (h h' : Heap) bev,
  h !! this = Some (ObjBasicEvent bev) ->
  do_calls calls h = Return tt h' ->
  exists bev',
    h' !! this = Some (ObjBasicEvent bev')
    /\ has_expression_ (basic_base bev')
       = has_expression_ (basic_base bev)
         || existsb (is_expression_call this) calls
    /\ to_bool (expression_ bev')
       = to_bool (expression_ bev) || existsb (assigns_expression this) calls
    /\ (length (filter (fun c => assigns_expression this c = true) calls)
        + (if to_bool (expression_ bev) then 1 else 0) <= 1)
    /\ (expression_ bev' = expression_ bev
        \/ (expression_ bev = nullptr
            /\ call_expression this (expression_ bev') ∈ calls)).
Proof.
  induction calls as [| c calls IH]; intros h h' bev Hthis Hrun.
  - injection Hrun as <-. exists bev. rewrite !orb_false_r. simpl.
    repeat split; auto. destruct (to_bool (expression_ bev)); lia.
  - simpl in Hrun. unfold bind in Hrun.
    destruct (do_call c h) as [[] h1 | | |] eqn:Hc; try discriminate.
    destruct (do_call_basic h h1 this bev c Hthis Hc)
      as (bev1 & Hthis1 & Hflag & Hexpr).
    destruct (IH h1 h' bev1 Hthis1 Hrun)
      as (bev' & Hthis' & Hflag' & Hbool & Hcount & Hmem).
    exists bev'. split; [exact Hthis' |].
    split; [rewrite Hflag', Hflag; simpl; by rewrite orb_assoc |].
    assert (Hother : expression_ bev1 = expression_ bev ->
                     assigns_expression this c = false ->
                     to_bool (expression_ bev')
                     = to_bool (expression_ bev)
                       || existsb (assigns_expression this) (c :: calls)
                     /\ length (filter
                                  (fun c => assigns_expression this c = true)
                                  (c :: calls))
                        + (if to_bool (expression_ bev) then 1 else 0) <= 1
                     /\ (expression_ bev' = expression_ bev
                         \/ (expression_ bev = nullptr
                             /\ call_expression this (expression_ bev')
                                ∈ c :: calls))).
    { intros Hsame Hno. rewrite Hsame in *.
      rewrite filter_cons_False by (rewrite Hno; done).
      cbn [existsb]. rewrite Hno. simpl.
      repeat split; auto.
      destruct Hmem as [-> | [Hnull Hmem]];
        [by left | right; split; [done | by apply list_elem_of_further]]. }
    destruct c as [o | l state | l constant | l e | l gate | l formula
                   | l new_mark | Ptr l event];
      try (apply Hother; [exact Hexpr | reflexivity]).
    destruct (decide (l = this)) as [-> | Hne].
    + simpl in Hexpr. destruct Hexpr as [Hnull Hset].
      rewrite Hnull, Hset in *.
      assert (Hassign : assigns_expression this (call_expression this e)
                        = to_bool e).
      { destruct e; simpl; [reflexivity |]. by apply bool_decide_eq_true_2. }
      assert (Hfilter :
        length (filter (fun c => assigns_expression this c = true)
                  (call_expression this e :: calls))
        = (if to_bool e then 1 else 0)
          + length (filter (fun c => assigns_expression this c = true) calls)).
      { destruct e.
        - rewrite filter_cons_False by (rewrite Hassign; done). reflexivity.
        - rewrite filter_cons_True by (rewrite Hassign; done). reflexivity. }
      cbn [existsb]. rewrite Hassign, Hfilter.
      split; [| split].
      * destruct e; simpl in *; exact Hbool.
      * destruct e; simpl in *; lia.
      * right. split; [reflexivity |].
        destruct Hmem as [-> | [_ Hmem]];
          [apply list_elem_of_here | by apply list_elem_of_further].
    + simpl in Hexpr.
      apply Hother; [exact Hexpr |]. simpl. destruct e; [reflexivity |].
      by apply bool_decide_eq_false_2.
Qed.

Lemma BasicEvent_observers_run (h : Heap) this bev :
  h !! this = Some (ObjBasicEvent bev) ->
  PrimaryEvent_has_expression this h
  = Return (has_expression_ (basic_base bev)) h
  /\ (expression_ bev = nullptr ->
      BasicEvent_p this h = Abort /\ BasicEvent_Validate this h = Undefined)
  /\ (forall ptr ex,
        expression_ bev = at_ ptr -> h !! ptr = Some (ObjExpression ex) ->
        BasicEvent_p this h = Return (Mean ex) h
        /\ BasicEvent_Validate this h
           = if double_lt (Min ex) 0%float || double_gt (Max ex) 1%float
             then Throw (mkException ValidationError
                           "Expression value is invalid.") h
             else Return tt h).
Proof.
  intros Hthis.
  unfold PrimaryEvent_has_expression, BasicEvent_p, BasicEvent_Validate.
  unfold_monad. rewrite Hthis. simpl.
  split; [reflexivity |]. split.
  - intros ->. auto.
  - intros ptr ex -> Hex. simpl. rewrite Hex. split; [reflexivity |].
    destruct (double_lt (Min ex) 0%float); [reflexivity |].
    rewrite Hex. destruct (double_gt (Max ex) 1%float); reflexivity.
Qed.

(** X5: for a freshly constructed basic event and any program,
    [has_expression()] is true if and only if the program called
    [expression(e)] on the event, with any pointer, null included.  At most
    one such call has an actual expression; without one [p()] fails its
    assertion and [Validate()], which has no such guard, dereferences a null
    pointer; with one, [p()] returns the mean of that expression and a
    further [expression(e')] fails its assertion.  So [has_expression()] can
    be true while [p()] aborts: after [expression(nullptr)]. *)
Theorem BasicEvent_expression_protocol (h : Heap) this name base_path
    is_public calls h' :
  h !! this = Some (ObjBasicEvent (BasicEvent_ctor name base_path is_public)) ->
  do_calls calls h = Return tt h' ->
  PrimaryEvent_has_expression this h'
  = Return (existsb (is_expression_call this) calls) h'
  /\ length (filter (fun c => assigns_expression this c = true) calls) <= 1
  /\ (existsb (assigns_expression this) calls = false ->
      BasicEvent_p this h' = Abort
      /\ BasicEvent_Validate this h' = Undefined)
  /\ (existsb (assigns_expression this) calls = true ->
      exists ptr,
        call_expression this (at_ ptr) ∈ calls
        /\ (forall e', BasicEvent_expression_set this e' h' = Abort)
        /\ forall ex, h' !! ptr = Some (ObjExpression ex) ->
                      BasicEvent_p this h' = Return (Mean ex) h').
Proof.
  intros Hthis Hrun.
  destruct (do_calls_basic this calls h h' _ Hthis Hrun)
    as (bev' & Hthis' & Hflag & Hbool & Hcount & Hmem).
  simpl in Hflag, Hbool, Hcount, Hmem.
  destruct (BasicEvent_observers_run h' this bev' Hthis')
    as (Hhas & Hnone & Hsome).
  rewrite Hhas, Hflag. split; [reflexivity |]. split; [lia |]. split.
  - intros Hno. rewrite Hno in Hbool. apply Hnone.
    by destruct (expression_ bev').
  - intros Hyes. rewrite Hyes in Hbool.
    destruct (expression_ bev') as [| ptr] eqn:Hptr; [discriminate |].
    exists ptr. split; [| split].
    + destruct Hmem as [Hmem | [_ Hmem]]; [discriminate | exact Hmem].
    + intros e'.
      rewrite (BasicEvent_expression_set_run h' this bev' e' Hthis'), Hptr.
      reflexivity.
    + intros ex Hex. by apply (Hsome ptr ex).
Qed.

Lemma BasicEvent_expression_protocol_witness :
  exists h',
    do_calls second_program second_heap = Return tt h'
    /\ PrimaryEvent_has_expression 6%positive h' = Return true h'
    /\ BasicEvent_p 6%positive h' = Abort
    /\ BasicEvent_Validate 6%positive h' = Undefined.
Proof.
  eexists. split; [reflexivity |].
  destruct (BasicEvent_expression_protocol second_heap 6%positive "Valve" ""
              true second_program _ eq_refl eq_refl)
    as (Hhas & _ & Hnone & _).
  split; [exact Hhas |]. exact (Hnone eq_refl).
Defined.

(** X6: once a basic event holds an expression, no program changes what
    [p()] returns nor the verdict of [Validate()]: the pointer can no longer
    be assigned and no call changes an expression object. *)
Theorem BasicEvent_p_stable (h h' : Heap) this bev ptr ex calls :
  h !! this = Some (ObjBasicEvent bev) ->
  expression_ bev = at_ ptr ->
  h !! ptr = Some (ObjExpression ex) ->
  do_calls calls h = Return tt h' ->
  BasicEvent_p this h = Return (Mean ex) h
  /\ BasicEvent_p this h' = Return (Mean ex) h'
  /\ existsb (assigns_expression this) calls = false
  /\ (BasicEvent_Validate this h' = Return tt h'
      <-> BasicEvent_Validate this h = Return tt h)
  /\ (forall exn, BasicEvent_Validate this h' = Throw exn h'
                  <-> BasicEvent_Validate this h = Throw exn h).
Proof.
  intros Hthis Hptr Hex Hrun.
  destruct (do_calls_basic this calls h h' bev Hthis Hrun)
    as (bev' & Hthis' & _ & _ & Hcount & Hmem).
  rewrite Hptr in Hcount, Hmem. simpl in Hcount.
  destruct Hmem as [Hmem | [Hnull _]]; [| discriminate].
  pose proof (do_calls_expression_object calls h h' ptr ex Hex Hrun) as Hex'.
  destruct (BasicEvent_observers_run h this bev Hthis) as (_ & _ & Hsome).
  destruct (BasicEvent_observers_run h' this bev' Hthis') as (_ & _ & Hsome').
  destruct (Hsome ptr ex Hptr Hex) as [Hp Hv].
  destruct (Hsome' ptr ex Hmem Hex') as [Hp' Hv'].
  rewrite Hp, Hp', Hv, Hv'.
  split; [reflexivity |]. split; [reflexivity |]. split; [| split].
  - destruct (existsb (assigns_expression this) calls) eqn:Hex1;
      [| reflexivity].
    exfalso. apply existsb_exists in Hex1. destruct Hex1 as (c & Hin & Hc).
    assert (Hlen : 0 < length (filter
                                 (fun c => assigns_expression this c = true)
                                 calls)).
    { apply list_elem_of_In in Hin.
      assert (Hf : c ∈ filter (fun c => assigns_expression this c = true)
                         calls) by (apply list_elem_of_filter; done).
      destruct (filter _ calls); [by apply elem_of_nil in Hf | simpl; lia]. }
    lia.
  - destruct (double_lt (Min ex) 0%float || double_gt (Max ex) 1%float);
      split; intros H; first [discriminate H | reflexivity].
  - intros exn.
    destruct (double_lt (Min ex) 0%float || double_gt (Max ex) 1%float);
      split; intros H; first [discriminate H | injection H as <-; reflexivity].
Qed.

Lemma BasicEvent_p_stable_witness :
  exists h',
    do_calls second_program second_heap = Return tt h'
    /\ BasicEvent_p 1%positive second_heap = Return 0.5%float second_heap
    /\ BasicEvent_p 1%positive h' = Return 0.5%float h'.
Proof.
  eexists. split; [reflexivity |].
  destruct (BasicEvent_p_stable second_heap _ 1%positive _ 2%positive
              nan_bounds second_program eq_refl eq_refl eq_refl eq_refl)
    as (Hp & Hp' & _).
  split; [exact Hp | exact Hp'].
Defined.

(** ** Formulae under programs *)

Lemma do_call_formula (h h1 : Heap) this fm c :
  h !! this = Some (ObjFormula fm) ->
  do_call c h = Return tt h1 ->
  exists fm1,
    h1 !! this = Some (ObjFormula fm1)
    /\ match c with
       | call_AddArgument Ptr l event =>
           if decide (l = this)
           then exists ev,
                  deref_event Ptr event h = Return ev h
                  /\ event_args_ fm !! id_ ev = None
                  /\ fm1 = container_emplace_back Ptr event
                             (emplace_event_arg (id_ ev) event fm)
           else fm1 = fm
       | _ => fm1 = fm
       end.
Proof.
  intros Hthis Hrun. invert_call c Hrun.
  - exists fm. by rewrite lookup_insert_ne by congruence.
  - lookup_updated l this; [| by exists fm].
    rewrite Hthis in Hl. injection Hl as <-. discriminate Hbase.
  - lookup_updated l this; [congruence | by exists fm].
  - lookup_updated l this; [congruence | by exists fm].
  - lookup_updated l this; [congruence | by exists fm].
  - lookup_updated l this; [congruence | by exists fm].
  - lookup_updated l this; [congruence | by exists fm].
  - destruct (decide (l = this)) as [-> | Hne].
    + rewrite lookup_insert_eq. rewrite Hthis in Hl. injection Hl as <-.
      eexists. split; [reflexivity |]. eauto.
    + rewrite lookup_insert_ne by done. by exists fm.
Qed.

Lemma container_emplace_back_container Ptr Ptr' event id fm :
  container Ptr' (container_emplace_back Ptr event
                    (emplace_event_arg id event fm))
  = container Ptr' fm ++ (if decide (Ptr = Ptr') then [event] else []).
Proof. destruct Ptr, Ptr'; simpl; by rewrite ?app_nil_r. Qed.

(** X7: a program appends to each typed vector of a formula, in the order
    of the calls, the pointers handed to the overload of that vector, and
    changes nothing else of the formula but the event map: the operator,
    the vote number, the nested formulae, the nodes, the connectors and the
    gather flag are as before. *)
Theorem Formula_args_in_order calls : forall (h h' : Heap) this fm,
  h !! this = Some (ObjFormula fm) ->
  do_calls calls h = Return tt h' ->
  exists fm',
    h' !! this = Some (ObjFormula fm')
    /\ (forall Ptr, container Ptr fm'
                    = container Ptr fm ++ omap (added_as Ptr this) calls)
    /\ formula_args_ fm' = formula_args_ fm
    /\ type_ fm' = type_ fm
    /\ vote_number_ fm' = vote_number_ fm
    /\ nodes_ fm' = nodes_ fm
    /\ connectors_ fm' = connectors_ fm
    /\ gather_ fm' = gather_ fm.
Proof.
  induction calls as [| c calls IH]; intros h h' this fm Hthis Hrun.
  - injection Hrun as <-. exists fm. split; [exact Hthis |].
    split; [intros Ptr; simpl; by rewrite app_nil_r | auto 10].
  - simpl in Hrun. unfold bind in Hrun.
    destruct (do_call c h) as [[] h1 | | |] eqn:Hc; try discriminate.
    destruct (do_call_formula h h1 this fm c Hthis Hc) as (fm1 & Hthis1 & Hfm1).
    destruct (IH h1 h' this fm1 Hthis1 Hrun)
      as (fm' & Hthis' & Hcont & Hrest).
    exists fm'. split; [exact Hthis' |].
    assert (Hsame : fm1 = fm -> (forall Ptr, added_as Ptr this c = None) ->
                    (forall Ptr, container Ptr fm'
                                 = container Ptr fm
                                   ++ omap (added_as Ptr this) (c :: calls))
                    /\ formula_args_ fm' = formula_args_ fm
                    /\ type_ fm' = type_ fm
                    /\ vote_number_ fm' = vote_number_ fm
                    /\ nodes_ fm' = nodes_ fm
                    /\ connectors_ fm' = connectors_ fm
                    /\ gather_ fm' = gather_ fm).
    { intros -> Hnone. split; [| exact Hrest].
      intros Ptr. rewrite Hcont.
      change (omap (added_as Ptr this) (c :: calls))
        with (match added_as Ptr this c with
              | Some p => p :: omap (added_as Ptr this) calls
              | None => omap (added_as Ptr this) calls
              end).
      by rewrite Hnone. }
    destruct c as [o | l state | l constant | l e | l gate | l formula
                   | l new_mark | Ptr0 l event];
      try (apply Hsame; [exact Hfm1 | reflexivity]).
    destruct (decide (l = this)) as [-> | Hne].
    + destruct Hfm1 as (ev & _ & _ & ->). split.
      * intros Ptr. rewrite Hcont, container_emplace_back_container.
        change (omap (added_as Ptr this)
                  (call_AddArgument Ptr0 this event :: calls))
          with (match added_as Ptr this (call_AddArgument Ptr0 this event) with
                | Some p => p :: omap (added_as Ptr this) calls
                | None => omap (added_as Ptr this) calls
                end).
        simpl added_as.
        destruct (decide (Ptr0 = Ptr)) as [-> | HPtr].
        -- rewrite decide_True by done. by rewrite <- app_assoc.
        -- rewrite decide_False by tauto. by rewrite app_nil_r.
      * exact Hrest.
    + apply Hsame; [exact Hfm1 |]. intros Ptr. simpl.
      by rewrite decide_False by tauto.
Qed.

Lemma Formula_args_in_order_witness :
  exists h',
    do_calls second_program second_heap = Return tt h'
    /\ exists fm',
         h' !! 5%positive = Some (ObjFormula fm')
         /\ house_event_args_ fm' = [at_ 4%positive]
         /\ basic_event_args_ fm' = [at_ 1%positive]
         /\ gate_args_ fm' = [at_ 3%positive]
         /\ type_ fm' = "or".
Proof.
  eexists. split; [reflexivity |].
  destruct (Formula_args_in_order second_program second_heap _ 5%positive _
              eq_refl eq_refl) as (fm' & Hthis' & Hcont & _ & Htype & _).
  exists fm'. split; [exact Hthis' |].
  split; [exact (Hcont HouseEventPtr) |].
  split; [exact (Hcont BasicEventPtr) |].
  split; [exact (Hcont GatePtr) | exact Htype].
Defined.

Lemma typed_args_emplace_back Ptr event id fm :
  typed_args (container_emplace_back Ptr event (emplace_event_arg id event fm))
  ≡ₚ typed_args fm ++ [(Ptr, event)].
Proof.
  unfold typed_args.
  destruct Ptr;
    cbn [container_emplace_back emplace_event_arg house_event_args_
           basic_event_args_ gate_args_];
    rewrite fmap_app; cbn [fmap list_fmap].
  - rewrite <- !app_assoc. apply Permutation_app_head.
    rewrite (app_assoc _ _ [(HouseEventPtr, event)]).
    apply Permutation_app_comm.
  - rewrite <- !app_assoc. do 2 apply Permutation_app_head.
    apply Permutation_app_comm.
  - by rewrite <- !app_assoc.
Qed.

Lemma args_consistent_ctor (h : Heap) type vote gather :
  args_consistent h (Formula_ctor type vote gather).
Proof.
  repeat split; simpl.
  - intros arg Harg. by apply elem_of_nil in Harg.
  - intros id p Hlookup. by rewrite lookup_empty in Hlookup.
  - constructor.
Qed.

(** Consistency survives a heap change that keeps the ids of events and
    leaves the formula alone or adds one argument under a new id. *)
Lemma args_consistent_step (h h1 : Heap) fm fm1 :
  args_consistent h fm ->
  (forall arg i, id_at h arg = Some i -> id_at h1 arg = Some i) ->
  fm1 = fm
  \/ (exists Ptr event ev,
        id_at h (Ptr, event) = Some (id_ ev)
        /\ event_args_ fm !! id_ ev = None
        /\ fm1 = container_emplace_back Ptr event
                   (emplace_event_arg (id_ ev) event fm)) ->
  args_consistent h1 fm1.
Proof.
  intros (Hin & Hmap & Hnodup & Hsize) Hids Hcase.
  assert (Hfmap : id_at h1 <$> typed_args fm = id_at h <$> typed_args fm).
  { apply Forall_fmap_ext, Forall_forall. intros arg Harg.
    destruct (Hin arg Harg) as (i & Hi & _). rewrite Hi. by apply Hids. }
  destruct Hcase as [-> | (Ptr & event & ev & Hev & Hnone & ->)].
  - split; [| split; [| split]].
    + intros arg Harg. destruct (Hin arg Harg) as (i & Hi & Hlookup).
      exists i. split; [by apply Hids | exact Hlookup].
    + intros i p Hlookup. destruct (Hmap i p Hlookup) as (Ptr & Harg & Hi).
      exists Ptr. split; [exact Harg | by apply Hids].
    + by rewrite Hfmap.
    + exact Hsize.
  - pose proof (typed_args_emplace_back Ptr event (id_ ev) fm) as Hperm.
    assert (Hmap1 : event_args_ (container_emplace_back Ptr event
                                   (emplace_event_arg (id_ ev) event fm))
                    = <[id_ ev := event]> (event_args_ fm)).
    { simpl. unfold map_emplace. by rewrite Hnone. }
    unfold args_consistent. rewrite Hmap1.
    assert (Hfresh : Some (id_ ev) ∉ id_at h <$> typed_args fm).
    { intros Hmem. apply list_elem_of_fmap in Hmem.
      destruct Hmem as (arg & Harg & HargIn).
      destruct (Hin arg HargIn) as (i & Hi & Hlookup). congruence. }
    split; [| split; [| split]].
    + intros arg Harg. rewrite Hperm in Harg.
      apply elem_of_app in Harg. destruct Harg as [Harg | Harg].
      * destruct (Hin arg Harg) as (i & Hi & Hlookup).
        exists i. split; [by apply Hids |].
        rewrite lookup_insert_ne by congruence. exact Hlookup.
      * apply list_elem_of_singleton in Harg. subst arg.
        exists (id_ ev). split; [by apply Hids |]. apply lookup_insert_eq.
    + intros i p Hlookup.
      destruct (decide (i = id_ ev)) as [-> | Hne].
      * rewrite lookup_insert_eq in Hlookup. injection Hlookup as <-.
        exists Ptr. split; [| by apply Hids].
        rewrite Hperm. apply elem_of_app. right. apply list_elem_of_here.
      * rewrite lookup_insert_ne in Hlookup by done.
        destruct (Hmap i p Hlookup) as (Ptr' & Harg & Hi).
        exists Ptr'. split; [| by apply Hids].
        rewrite Hperm. apply elem_of_app. by left.
    + rewrite Hperm, fmap_app, Hfmap. simpl.
      rewrite (Hids _ _ Hev).
      apply NoDup_app. split; [exact Hnodup |].
      split; [| apply NoDup_singleton].
      intros i Hi1 Hi2. apply list_elem_of_singleton in Hi2. by subst i.
    + rewrite map_size_insert_None by exact Hnone.
      rewrite Hperm, length_app, Hsize. simpl. lia.
Qed.

Lemma num_args_consistent (h : Heap) fm :
  args_consistent h fm ->
  num_args fm
  = to_int (Z.of_nat (length (house_event_args_ fm)
                      + length (basic_event_args_ fm)
                      + length (gate_args_ fm)
                      + length (formula_args_ fm))).
Proof.
  intros (_ & _ & _ & Hsize). unfold num_args. rewrite Hsize.
  unfold typed_args. rewrite !length_app, !length_fmap.
  f_equal. lia.
Qed.

(** X8: the event map and the typed vectors of a formula stay consistent.
    A constructed formula is consistent, and a program that runs on a heap
    where the formula at [this] is consistent leaves it consistent: the map
    holds exactly the pointers of the three vectors, each under the id of
    its event, the ids are pairwise distinct, and the map and the vectors
    have the same number of elements.  So [num_args()] is the number of
    elements of the four vectors taken together, as an [int]. *)
Theorem Formula_args_consistent :
  (forall (h : Heap) type vote gather,
     args_consistent h (Formula_ctor type vote gather))
  /\ forall calls (h h' : Heap) this fm,
       h !! this = Some (ObjFormula fm) ->
       args_consistent h fm ->
       do_calls calls h = Return tt h' ->
       exists fm',
         h' !! this = Some (ObjFormula fm')
         /\ args_consistent h' fm'
         /\ Formula_num_args this h'
            = Return (to_int (Z.of_nat (length (house_event_args_ fm')
                                        + length (basic_event_args_ fm')
                                        + length (gate_args_ fm')
                                        + length (formula_args_ fm')))) h'.
Proof.
  split; [apply args_consistent_ctor |].
  induction calls as [| c calls IH]; intros h h' this fm Hthis Hcons Hrun.
  - injection Hrun as <-. exists fm. split; [exact Hthis |].
    split; [exact Hcons |].
    unfold Formula_num_args. unfold_monad. rewrite Hthis.
    by rewrite (num_args_consistent h fm Hcons).
  - simpl in Hrun. unfold bind in Hrun.
    destruct (do_call c h) as [[] h1 | | |] eqn:Hc; try discriminate.
    destruct (do_call_formula h h1 this fm c Hthis Hc) as (fm1 & Hthis1 & Hfm1).
    apply (IH h1 h' this fm1 Hthis1); [| exact Hrun].
    apply (args_consistent_step h h1 fm fm1 Hcons).
    + intros arg i. by apply (do_call_id_at c).
    + destruct c as [o | l state | l constant | l e | l gate | l formula
                     | l new_mark | Ptr0 l event]; try (by left).
      destruct (decide (l = this)) as [-> | Hne]; [| by left].
      destruct Hfm1 as (ev & Hev & Hnone & ->).
      right. exists Ptr0, event, ev.
      split; [by apply id_at_deref | done].
Qed.

Lemma Formula_args_consistent_witness :
  exists h',
    do_calls second_program second_heap = Return tt h'
    /\ exists fm',
         h' !! 5%positive = Some (ObjFormula fm')
         /\ args_consistent h' fm'
         /\ Formula_num_args 5%positive h' = Return 3%Z h'.
Proof.
  eexists. split; [reflexivity |].
  destruct Formula_args_consistent as [Hctor Hkeep].
  destruct (Hkeep second_program second_heap _ 5%positive
              (Formula_ctor "or" 0 true) eq_refl
              (Hctor second_heap "or" 0%Z true) eq_refl)
    as (fm' & Hthis' & Hcons & Hnum).
  exists fm'. split; [exact Hthis' |]. split; [exact Hcons |].
  rewrite Hnum. vm_compute in Hthis'. injection Hthis' as <-. reflexivity.
Defined.

(** ** Failures of programs *)

(** The only call that throws is [AddArgument], and it throws
    DuplicateArgumentError on the heap it was given. *)
Lemma do_call_throws c (h h' : Heap) exn :
  do_call c h = Throw exn h' ->
  dynamic_class exn = DuplicateArgumentError
  /\ h' = h
  /\ exists Ptr this event, c = call_AddArgument Ptr this event.
Proof.
  intros Hrun.
  destruct c as [o | l state | l constant | l e | l gate | l formula
                 | l new_mark | Ptr l event]; simpl in Hrun.
  - discriminate Hrun.
  - unfold Event_orphan_set in Hrun. unfold_monad.
    destruct (h !! l) as [obj |]; [| discriminate].
    destruct (event_base obj); discriminate.
  - unfold HouseEvent_state_set, PrimaryEvent_has_expression_set in Hrun.
    unfold_monad.
    destruct (h !! l) as [[] |]; try discriminate; simpl in Hrun;
      rewrite lookup_insert_eq in Hrun; discriminate.
  - unfold BasicEvent_expression_set, PrimaryEvent_has_expression_set in Hrun.
    unfold_monad.
    destruct (h !! l) as [[| | bev | |] |] eqn:Hl; try discriminate.
    destruct (expression_ bev); simpl in Hrun; [| discriminate].
    rewrite Hl in Hrun. simpl in Hrun. rewrite lookup_insert_eq in Hrun.
    discriminate.
  - unfold BasicEvent_ccf_gate_set in Hrun. unfold_monad.
    destruct (h !! l) as [[| | bev | |] |]; try discriminate.
    destruct (ccf_gate_ bev); discriminate.
  - unfold Gate_formula_set in Hrun. unfold_monad.
    destruct (h !! l) as [[| | | gt |] |]; try discriminate.
    destruct (formula_ gt); discriminate.
  - unfold Gate_mark_set in Hrun. unfold_monad.
    destruct (h !! l) as [[] |]; discriminate.
  - destruct (AddArgument_cases Ptr l event h)
      as [(fm & ev & Hl & Hev) | Hub]; [| congruence].
    rewrite (AddArgument_run Ptr l event h fm ev Hl Hev) in Hrun.
    destruct (event_args_ fm !! id_ ev); [| discriminate].
    injection Hrun as <- <-. eauto 10.
Qed.

(** X9: a program throws only through an [AddArgument] that finds its
    argument's id in the formula: the exception is DuplicateArgumentError,
    and the heap it leaves is the heap after the calls before that one, the
    failing call having changed nothing; the calls after it are not run. *)
Theorem do_calls_throws_only_duplicate calls : forall (h h' : Heap) exn,
  do_calls calls h = Throw exn h' ->
  dynamic_class exn = DuplicateArgumentError
  /\ exists before Ptr this event after,
       calls = before ++ call_AddArgument Ptr this event :: after
       /\ do_calls before h = Return tt h'
       /\ AddArgument Ptr this event h' = Throw exn h'.
Proof.
  induction calls as [| c calls IH]; intros h h' exn Hrun; [discriminate |].
  simpl in Hrun. unfold bind in Hrun.
  destruct (do_call c h) as [[] h1 | exn1 h1 | |] eqn:Hc; try discriminate.
  - destruct (IH h1 h' exn Hrun)
      as (Hclass & before & Ptr & this & event & after & -> & Hbefore & Hadd).
    split; [exact Hclass |].
    exists (c :: before), Ptr, this, event, after.
    split; [reflexivity |]. split; [| exact Hadd].
    simpl. unfold bind. by rewrite Hc.
  - injection Hrun as <- <-.
    destruct (do_call_throws c h h1 exn1 Hc)
      as (Hclass & -> & Ptr & this & event & ->).
    split; [exact Hclass |].
    exists [], Ptr, this, event, calls. auto.
Qed.

Lemma do_calls_throws_only_duplicate_witness :
  exists h',
    do_calls failing_program second_heap
    = Throw (mkException DuplicateArgumentError "Duplicate argument valve") h'
    /\ do_calls [call_AddArgument BasicEventPtr 8%positive (at_ 6%positive);
                 call_mark 7%positive "temp"] second_heap = Return tt h'
    /\ Event_orphan 6%positive h' = Return false h'.
Proof.
  eexists. split; [reflexivity |].
  destruct (do_calls_throws_only_duplicate failing_program second_heap _ _
              eq_refl) as (_ & before & Ptr & this & event & after
                           & Hcalls & Hbefore & _).
  split; reflexivity.
Defined.


Lemma do_call_aborts_iff c (h : Heap) :
  do_call c h = Abort <-> assigned_twice h c.
Proof.
  destruct c as [o | l state | l constant | l e | l gate | l formula
                 | l new_mark | Ptr l event]; simpl.
  - split; [discriminate | contradiction].
  - unfold Event_orphan_set. unfold_monad.
    destruct (h !! l) as [obj |]; [| split; [discriminate | contradiction]].
    destruct (event_base obj); split; (discriminate || contradiction).
  - unfold HouseEvent_state_set, PrimaryEvent_has_expression_set.
    unfold_monad.
    destruct (h !! l) as [[] |]; simpl; rewrite ?lookup_insert_eq;
      split; (discriminate || contradiction).
  - destruct (h !! l) as [obj |] eqn:Hl.
    + destruct obj as [| | bev | |];
        try (unfold BasicEvent_expression_set; unfold_monad; rewrite Hl;
             split; [discriminate | intros (? & [=] & _)]).
      rewrite (BasicEvent_expression_set_run h l bev e Hl).
      destruct (to_bool (expression_ bev)) eqn:Hset.
      * split; [eauto | reflexivity].
      * split; [discriminate | intros (? & [= <-] & ?); congruence].
    + unfold BasicEvent_expression_set. unfold_monad. rewrite Hl.
      split; [discriminate | intros (? & [=] & _)].
  - destruct (h !! l) as [obj |] eqn:Hl.
    + destruct obj as [| | bev | |];
        try (unfold BasicEvent_ccf_gate_set; unfold_monad; rewrite Hl;
             split; [discriminate | intros (? & [=] & _)]).
      rewrite (BasicEvent_ccf_gate_set_run h l bev gate Hl).
      destruct (to_bool (ccf_gate_ bev)) eqn:Hset.
      * split; [eauto | reflexivity].
      * split; [discriminate | intros (? & [= <-] & ?); congruence].
    + unfold BasicEvent_ccf_gate_set. unfold_monad. rewrite Hl.
      split; [discriminate | intros (? & [=] & _)].
  - destruct (h !! l) as [obj |] eqn:Hl.
    + destruct obj as [| | | gt |];
        try (unfold Gate_formula_set; unfold_monad; rewrite Hl;
             split; [discriminate | intros (? & [=] & _)]).
      rewrite (Gate_formula_set_run h l gt formula Hl).
      destruct (to_bool (formula_ gt)) eqn:Hset.
      * split; [eauto | reflexivity].
      * split; [discriminate | intros (? & [= <-] & ?); congruence].
    + unfold Gate_formula_set. unfold_monad. rewrite Hl.
      split; [discriminate | intros (? & [=] & _)].
  - unfold Gate_mark_set. unfold_monad.
    destruct (h !! l) as [[] |]; split; (discriminate || contradiction).
  - split; [| contradiction].
    intros Hrun.
    destruct (AddArgument_cases Ptr l event h)
      as [(fm & ev & Hl & Hev) | Hub]; [| congruence].
    rewrite (AddArgument_run Ptr l event h fm ev Hl Hev) in Hrun.
    destruct (event_args_ fm !! id_ ev); discriminate.
Qed.

(** X10: a program fails an assertion exactly when, after some of its calls
    have returned, the next one is [expression(e)], [ccf_gate(gate)] or
    [formula(f)] on an object that already holds such a pointer, whatever
    the argument of the call.  The other member functions and [AddArgument]
    assert nothing. *)
Theorem do_calls_aborts_iff calls : forall h : Heap,
  do_calls calls h = Abort
  <-> exists before c after h1,
        calls = before ++ c :: after
        /\ do_calls before h = Return tt h1
        /\ assigned_twice h1 c.
Proof.
  induction calls as [| c calls IH]; intros h.
  - split; [discriminate |].
    intros (before & c & after & h1 & Hcalls & _).
    by destruct before.
  - simpl. unfold bind.
    destruct (do_call c h) as [[] h1 | exn1 h1 | |] eqn:Hc.
    + rewrite IH. split.
      * intros (before & c' & after & h2 & -> & Hbefore & Htwice).
        exists (c :: before), c', after, h2.
        split; [reflexivity |]. split; [| exact Htwice].
        simpl. unfold bind. by rewrite Hc.
      * intros (before & c' & after & h2 & Hcalls & Hbefore & Htwice).
        destruct before as [| c0 before].
        -- injection Hcalls as <- <-. injection Hbefore as <-.
           apply do_call_aborts_iff in Htwice. congruence.
        -- injection Hcalls as <- ->.
           simpl in Hbefore. unfold bind in Hbefore. rewrite Hc in Hbefore.
           exists before, c', after, h2. auto.
    + split; [discriminate |].
      intros (before & c' & after & h2 & Hcalls & Hbefore & Htwice).
      destruct before as [| c0 before].
      * injection Hcalls as <- <-. injection Hbefore as <-.
        apply do_call_aborts_iff in Htwice. congruence.
      * injection Hcalls as <- ->.
        simpl in Hbefore. unfold bind in Hbefore. rewrite Hc in Hbefore.
        discriminate.
    + split; [| reflexivity]. intros _.
      exists [], c, calls, h. split; [reflexivity |].
      split; [reflexivity | by apply do_call_aborts_iff].
    + split; [discriminate |].
      intros (before & c' & after & h2 & Hcalls & Hbefore & Htwice).
      destruct before as [| c0 before].
      * injection Hcalls as <- <-. injection Hbefore as <-.
        apply do_call_aborts_iff in Htwice. congruence.
      * injection Hcalls as <- ->.
        simpl in Hbefore. unfold bind in Hbefore. rewrite Hc in Hbefore.
        discriminate.
Qed.

Lemma do_calls_aborts_iff_witness :
  do_calls (second_program ++ [call_formula 3%positive nullptr]) second_heap
  = Abort
  /\ do_calls (second_program ++ [call_expression 6%positive (at_ 2%positive)])
       second_heap <> Abort.
Proof.
  split.
  - apply do_calls_aborts_iff.
    eexists second_program, (call_formula 3%positive nullptr), [], _.
    split; [reflexivity |]. split; [reflexivity |].
    eexists. split; reflexivity.
  - intros H. vm_compute in H. discriminate H.
Defined.

(** ** Handlers *)

(** X11: the exception classes form a tree under [Error]: derivation is
    reflexive, transitive and antisymmetric, every class derives from
    [Error], and a class derives from another exactly when it is that
    class, has it as its direct base, or the other is [Error].  So a handler
    for [Error] is entered for every SCRAM exception, a handler for
    ValidationError for the four derived classes and for ValidationError
    itself only, and a handler for any other class for that class only. *)
Theorem handler_scope :
  (forall c, is_a c c = true)
  /\ (forall c d e, is_a c d = true -> is_a d e = true -> is_a c e = true)
  /\ (forall c d, is_a c d = true -> is_a d c = true -> c = d)
  /\ (forall c, is_a c Error = true)
  /\ (forall c d, is_a c d = true <-> c = d \/ base c = Some d \/ d = Error)
  /\ (forall T exn,
        catches T exn = true
        <-> dynamic_class exn = T
            \/ T = Error
            \/ (T = ValidationError
                /\ dynamic_class exn
                   ∈ [RedefinitionError; DuplicateArgumentError;
                      UndefinedElement; CycleError])).
Proof.
  split; [by intros [] |].
  split; [intros [] [] []; (reflexivity || discriminate) |].
  split; [intros [] []; (reflexivity || discriminate) |].
  split; [by intros [] |].
  split.
  - intros [] []; vm_compute; split; intros H;
      first [ reflexivity | discriminate H
            | left; reflexivity
            | right; left; reflexivity
            | right; right; reflexivity
            | destruct H as [H | [H | H]]; discriminate H ].
  - intros T [c msg]. unfold catches. simpl.
    destruct c, T; vm_compute; split; intros H;
      first [ reflexivity | discriminate H
            | left; reflexivity
            | right; left; reflexivity
            | right; right; split; [reflexivity |];
              repeat first [ apply list_elem_of_here
                           | apply list_elem_of_further ]
            | destruct H as [H | [H | [H Hin]]]; try discriminate H;
              repeat (apply elem_of_cons in Hin;
                      destruct Hin as [Hin | Hin]; [discriminate Hin |]);
              by apply elem_of_nil in Hin ].
Qed.

(** X12: an [AddArgument] wrapped in a handler.  When the id of the event is
    in the formula, a handler for DuplicateArgumentError, ValidationError
    or [Error] is entered, on the unchanged heap, and a handler for any
    other class lets the exception pass; when the id is new the handler
    plays no part.  With a handler for ValidationError that does nothing,
    the call always returns, the id is in the event map afterwards, and the
    heap is unchanged when it was there before. *)
Theorem AddArgument_guarded Ptr this event (h : Heap) fm ev :
  h !! this = Some (ObjFormula fm) ->
  deref_event Ptr event h = Return ev h ->
  let exn := mkException DuplicateArgumentError
               ("Duplicate argument " +:+ name_ ev) in
  (forall T (handler : Exception -> HeapM unit),
     try_catch (AddArgument Ptr this event) T handler h
     = match event_args_ fm !! id_ ev with
       | None => AddArgument Ptr this event h
       | Some _ =>
           if bool_decide
                (T ∈ [DuplicateArgumentError; ValidationError; Error])
           then handler exn h
           else Throw exn h
       end)
  /\ exists h' fm',
       try_catch (AddArgument Ptr this event) ValidationError
         (fun _ => ret tt) h = Return tt h'
       /\ h' !! this = Some (ObjFormula fm')
       /\ is_Some (event_args_ fm' !! id_ ev)
       /\ (is_Some (event_args_ fm !! id_ ev) -> h' = h).
Proof.
  intros Hthis Hev exn.
  assert (Hadd := AddArgument_run Ptr this event h fm ev Hthis Hev).
  split.
  - intros T handler. unfold try_catch. rewrite Hadd.
    destruct (event_args_ fm !! id_ ev) as [p |]; [| reflexivity].
    unfold catches. simpl dynamic_class.
    destruct T; reflexivity.
  - unfold try_catch. rewrite Hadd.
    destruct (event_args_ fm !! id_ ev) as [p |] eqn:Hlookup.
    + exists h, fm. simpl. repeat split; eauto.
    + eexists _, _. split; [reflexivity |].
      split; [apply lookup_insert_eq |]. split.
      * simpl. unfold map_emplace. rewrite Hlookup, lookup_insert_eq. eauto.
      * intros [? [=]].
Qed.

Lemma AddArgument_guarded_witness :
  exists h1,
    AddArgument BasicEventPtr 8%positive (at_ 6%positive) second_heap
    = Return tt h1
    /\ try_catch (AddArgument GatePtr 8%positive (at_ 7%positive))
         ValidationError (fun _ => ret tt) h1 = Return tt h1
    /\ try_catch (AddArgument GatePtr 8%positive (at_ 7%positive))
         CycleError (fun _ => ret tt) h1
       = Throw (mkException DuplicateArgumentError "Duplicate argument valve")
           h1.
Proof.
  eexists. split; [reflexivity |].
  match goal with
  | |- try_catch _ _ _ ?h1 = _ /\ _ =>
      assert (Hev : deref_event GatePtr (at_ 7%positive) h1
                    = Return (Event_ctor "valve" "" true) h1) by reflexivity;
      destruct (AddArgument_guarded GatePtr 8%positive (at_ 7%positive) h1
                  _ _ (lookup_insert_eq _ _ _) Hev) as [Hhandlers _]
  end.
  split.
  - exact (Hhandlers ValidationError (fun _ => ret tt)).
  - exact (Hhandlers CycleError (fun _ => ret tt)).
Defined.

(** ** Bounds that are not numbers *)

Lemma SFcompare_refl_not_nan x :
  SFcompare x x = None -> x = S754_nan.
Proof.
  destruct x as [[] | [] | | [] m e]; simpl; try discriminate; reflexivity.
Qed.

(** A comparison with NaN is false. *)
Lemma double_nan_compare x y :
  is_nan x = true -> double_lt x y = false /\ double_gt x y = false.
Proof.
  unfold is_nan, double_lt, double_gt.
  rewrite FloatAxioms.eqb_spec, !FloatAxioms.ltb_spec.
  unfold SFeqb, SFltb. intros Hnan.
  assert (Hx : Prim2SF x = S754_nan).
  { apply SFcompare_refl_not_nan.
    destruct (SFcompare (Prim2SF x) (Prim2SF x)) as [[] |] eqn:Hcmp;
      try reflexivity; try discriminate Hnan.
    - exfalso. destruct (Prim2SF x) as [[] | [] | | [] m e];
        simpl in Hcmp; try discriminate;
        rewrite Z.compare_refl in Hcmp;
        injection Hcmp as Hcmp; rewrite Pos.compare_cont_refl in Hcmp;
        discriminate.
    - exfalso. destruct (Prim2SF x) as [[] | [] | | [] m e];
        simpl in Hcmp; try discriminate;
        rewrite Z.compare_refl in Hcmp;
        injection Hcmp as Hcmp; rewrite Pos.compare_cont_refl in Hcmp;
        discriminate. }
  rewrite Hx. simpl. by destruct (Prim2SF y).
Qed.

(** X13: [Validate()] does not reject a bound that is not a number: an
    expression each of whose bounds is NaN or lies on the right side of its
    limit passes, since both comparisons of the test are false for NaN. *)
Theorem BasicEvent_Validate_nan (h : Heap) this bev ptr ex :
  h !! this = Some (ObjBasicEvent bev) ->
  expression_ bev = at_ ptr ->
  h !! ptr = Some (ObjExpression ex) ->
  is_nan (Min ex) = true \/ double_le 0%float (Min ex) = true ->
  is_nan (Max ex) = true \/ double_le (Max ex) 1%float = true ->
  BasicEvent_Validate this h = Return tt h.
Proof.
  intros Hthis Hptr Hex Hmin Hmax.
  destruct (BasicEvent_observers_run h this bev Hthis) as (_ & _ & Hsome).
  destruct (Hsome ptr ex Hptr Hex) as [_ ->].
  assert (Hlow : double_lt (Min ex) 0%float = false).
  { destruct Hmin as [Hnan | Hle].
    - by destruct (double_nan_compare (Min ex) 0%float Hnan).
    - apply double_le_not_gt in Hle. exact Hle. }
  assert (Hhigh : double_gt (Max ex) 1%float = false).
  { destruct Hmax as [Hnan | Hle].
    - by destruct (double_nan_compare (Max ex) 1%float Hnan).
    - by apply double_le_not_gt. }
  by rewrite Hlow, Hhigh.
Qed.

Lemma BasicEvent_Validate_nan_witness :
  BasicEvent_Validate 1%positive second_heap = Return tt second_heap.
Proof.
  apply (BasicEvent_Validate_nan second_heap 1%positive _ 2%positive
           nan_bounds eq_refl eq_refl eq_refl); left; reflexivity.
Defined.
